(** * Mandark: the command-line driver [src/app.ts] and the edit pipeline

    The development embeds [app.ts] (argument handling, model selection,
    the context-window check and the control flow of [main]) as Rocq
    functions.  The modules that [app.ts] imports ([process-files],
    [verify-edits], [edit-processor], [edit-history], [apiKeyUtils],
    [models], the provider clients) appear as fields of a record of
    externals; the packet stream normalizer, the applier and the history
    store are in addition modelled from the specification, in modules of
    their own. *)

From Stdlib Require Import ZArith Uint63 PrimFloat Ascii String.
From stdpp Require Import gmap strings list fin_maps.

Local Open Scope Z_scope.
Local Open Scope string_scope.
Local Open Scope list_scope.

(** ** JavaScript strings

    Strings are sequences of one-byte characters; [toLowerCase] and [trim]
    are the ASCII restrictions of the JavaScript methods. *)
Module JS.

(** [s.startsWith(p)] *)
Definition startsWith (s p : string) : bool := String.prefix p s.

Definition lower_char (c : ascii) : ascii :=
  let n := Ascii.N_of_ascii c in
  if ((65 <=? n) && (n <=? 90))%N then Ascii.ascii_of_N (n + 32) else c.

(** [s.toLowerCase()] *)
Fixpoint toLowerCase (s : string) : string :=
  match s with
  | EmptyString => EmptyString
  | String c s' => String (lower_char c) (toLowerCase s')
  end.

(** White space of [String.prototype.trim] below code point 128:
    TAB, LF, VT, FF, CR and SPACE. *)
Definition is_white (c : ascii) : bool :=
  let n := Ascii.N_of_ascii c in
  (((9 <=? n) && (n <=? 13)) || (n =? 32))%N.

Fixpoint trimStart (s : string) : string :=
  match s with
  | EmptyString => EmptyString
  | String c s' => if is_white c then trimStart s' else s
  end.

(** [trimEnd] keeps a character when it is not white space or when
    something survives after it. *)
Fixpoint trimEnd (s : string) : string :=
  match s with
  | EmptyString => EmptyString
  | String c s' =>
      match trimEnd s' with
      | EmptyString => if is_white c then EmptyString else String c EmptyString
      | r => String c r
      end
  end.

(** [s.trim()] *)
Definition trim (s : string) : string := trimEnd (trimStart s).

(** [s.slice(n)] for a non-negative [n] *)
Fixpoint slice (n : nat) (s : string) : string :=
  match n, s with
  | O, _ => s
  | S n', String _ s' => slice n' s'
  | S _, EmptyString => EmptyString
  end.

(** The truthiness of a string: [!!s] *)
Definition truthy (s : string) : bool :=
  match s with EmptyString => false | _ => true end.

(** A JavaScript number that results from a division or carries a
    fraction is a double: an IEEE 754 binary64 value with the operations of
    the standard, rounding to nearest, ties to even. *)
Definition number : Type := float.

Definition NaN : number := nan.

(** An integer as a double.  The conversion is the one of the standard for
    the magnitudes below 2^63; it is exact below 2^53, where the token
    counts and the sizes of the model table lie. *)
Definition ofInteger (z : Z) : number :=
  match z with
  | Z0 => 0%float
  | Zpos _ => PrimFloat.of_uint63 (Uint63.of_Z z)
  | Zneg p => (- PrimFloat.of_uint63 (Uint63.of_Z (Zpos p)))%float
  end.

(** [(n / d) * 100] on integers [n] and [d]: the quotient is rounded, then
    the product *)
Definition percent (n d : Z) : number :=
  (ofInteger n / ofInteger d * 100)%float.

End JS.

(** ** Models ([models.ts] is an import of [app.ts]; only the fields that
    [app.ts] reads are listed) *)
Record Model : Type := mkModel {
  name : string;
  nickName : string;
  provider : string;
  contextWindow : Z;
  outputLength : Z;
  inputCPM : JS.number;
  outputCPM : JS.number
}.

(** ** [checkContextWindowOverflow] *)
Record OverflowCheck : Type := mkOverflowCheck {
  overflow : bool;
  overflowTokens : option Z;
  overflowPercentage : option JS.number
}.

Definition availableTokens (selectedModel : Model) : Z :=
  contextWindow selectedModel - outputLength selectedModel.

Definition checkContextWindowOverflow (inputTokens : Z) (selectedModel : Model)
  : OverflowCheck :=
  let availableTokens := contextWindow selectedModel - outputLength selectedModel in
  if (availableTokens <? inputTokens)%Z then
    let overflowTokens := inputTokens - availableTokens in
    let overflowPercentage := JS.percent overflowTokens availableTokens in
    {| overflow := true;
       overflowTokens := Some overflowTokens;
       overflowPercentage := Some overflowPercentage |}
  else {| overflow := false; overflowTokens := None; overflowPercentage := None |}.

(** ** Edit packets and verification results, the values that flow from the
    provider clients through [verifyEditStream] into the [EditProcessor] *)
Inductive Operation : Type := replaceLines | insertAfterLine | deleteLines.

Record EditPacket : Type := mkEditPacket {
  filePath : string;
  operation : Operation;
  startLine : Z;
  endLine : option Z;
  newContent : list string;
  rationale : option string
}.

Inductive Verdict : Type :=
| accepted
| corrected (fixed : EditPacket)
| rejected (reason : string).

Record VerificationResult : Type := mkVerificationResult {
  proposed : EditPacket;
  verdict : Verdict
}.

(** ** The machine: files, the history slot and the stored API keys *)
Record FS : Type := mkFS {
  contents : gmap string string;
  readonly : gset string
}.

Definition readFile (fs : FS) (path : string) : option string :=
  contents fs !! path.

(** [fs.writeFileSync(path, data)]: creates or replaces the file, and fails
    on a path that may not be written. *)
Definition writeFile (fs : FS) (path data : string) : option FS :=
  if decide (path ∈ readonly fs) then None
  else Some {| contents := <[path := data]> (contents fs); readonly := readonly fs |}.

Record HistoryEntry : Type := mkHistoryEntry {
  timestamp : Z;
  affectedFiles : gmap string string
}.

Record World : Type := mkWorld {
  files : FS;
  history : option HistoryEntry;
  keys : gmap string string
}.

Inductive Result (A : Type) : Type :=
| Ok (a : A)
| Err (e : string).
Arguments Ok {A} a.
Arguments Err {A} e.

Inductive RestoreStatus : Type := restored | restoreFailed.

Inductive RevertReport : Type :=
| NothingToRevert
| Reverted (perFile : list (string * RestoreStatus)).

Record ProcessedFiles : Type := mkProcessedFiles {
  code : string;
  count : Z
}.

(** ** What the program prints, and what it does to the outside *)
Inductive Message : Type :=
| MsgNoFiles
| MsgSaved
| MsgWelcome
| MsgAvailableModels (nickNames : list string)
| MsgAppendHint
| MsgSelectedModel (m : Model)
| MsgKeySet (provider : string)
| MsgOverflowWarning (tokens : Z) (percentage : JS.number)
| MsgReduceInput
| MsgLoaded (count tokens : Z) (cost : JS.number)
| MsgNewline
| MsgUnsupportedProvider (provider : string)
| MsgLeaveStar
| MsgUncaught (e : string).

Inductive Client : Type := Claude | GPT | Fireworks.

Inductive Event : Type :=
| ERevertLastChanges (r : Result RevertReport)
| EProcessFiles (inputs : list string) (includeImports : bool)
| EWriteFileSync (path data : string)
| ELog (m : Message)
| EError (m : Message)
| ECheckAPIKey (provider : string) (present : bool)
| EGetAndSetAPIKey (provider : string)
| EConfirm (answer : bool)
| EInput (task : string)
| EAskAI (code question name provider : string)
| EStdoutWrite (chunk : string)
| EGetAIEdits (client : Client) (code task name : string) (r : Result (list EditPacket))
| ENewEditProcessor
| EVerifyEditStream (stream : list EditPacket) (provider : string)
| EProcessEditStream (stream : list VerificationResult)
| EExit (code : Z).

(** The imports of [app.ts] whose code is not at hand, each with the part of
    the machine it works on. *)
Record Externals : Type := mkExternals {
  models : list Model;
  preferredVerifierModel : Model;
  processFiles : list string → bool → FS → Result ProcessedFiles;
  checkAPIKey : string → gmap string string → bool;
  getAndSetAPIKey : string → gmap string string → Result (gmap string string);
  countTokens : string → Z;
  taskPrompt : string → string;
  askAI : string → string → string → string → list string * option string;
  getAIEditsFromClaude : string → string → string → Result (list EditPacket);
  getAIEditsFromGPT : string → string → string → Result (list EditPacket);
  getAIEditsFromFireworks : string → string → string → Result (list EditPacket);
  verifyEditStream : list EditPacket → string → Result (list VerificationResult);
  processEditStream :
    list VerificationResult → FS * option HistoryEntry →
    FS * option HistoryEntry * Result unit;
  revertLastChanges :
    FS * option HistoryEntry → FS * option HistoryEntry * Result RevertReport
}.

(** One start of the program: the arguments after the script name and what
    the user answers at the two prompts ([None]: the prompt is aborted). *)
Record Invocation : Type := mkInvocation {
  argv : list string;
  confirmAnswer : option bool;
  taskAttempts : list string
}.

(** ** The effect monad of [main]: a trace of events, the machine, and how the
    computation ends *)
Inductive Outcome (A : Type) : Type :=
| Return (a : A)
| Exit (code : Z)
| Throw (e : string).
Arguments Return {A} a.
Arguments Exit {A} code.
Arguments Throw {A} e.

Record Run (A : Type) : Type := mkRun {
  trace : list Event;
  world : World;
  outcome : Outcome A
}.
Arguments mkRun {A} trace world outcome.
Arguments trace {A} r.
Arguments world {A} r.
Arguments outcome {A} r.

Definition M (A : Type) : Type := World → Run A.

Definition M_ret {A : Type} (a : A) : M A := λ w, mkRun [] w (Return a).

Definition M_bind {A B : Type} (f : A → M B) (m : M A) : M B :=
  λ w,
    match m w with
    | mkRun t w1 (Return a) =>
        match f a w1 with
        | mkRun t' w2 o => mkRun (t ++ t') w2 o
        end
    | mkRun t w1 (Exit c) => mkRun t w1 (Exit c)
    | mkRun t w1 (Throw e) => mkRun t w1 (Throw e)
    end.

#[global] Instance M_mret : MRet M := @M_ret.
#[global] Instance M_mbind : MBind M := @M_bind.

Definition emit (e : Event) : M unit := λ w, mkRun [e] w (Return tt).
Definition throw {A : Type} (e : string) : M A := λ w, mkRun [] w (Throw e).
Definition getWorld : M World := λ w, mkRun [] w (Return w).
Definition putWorld (w : World) : M unit := λ _, mkRun [] w (Return tt).

Definition liftResult {A : Type} (r : Result A) : M A :=
  match r with
  | Ok a => mret a
  | Err e => throw e
  end.

(** [console.log], [console.error] and [process.exit] *)
Definition log (m : Message) : M unit := emit (ELog m).
Definition error (m : Message) : M unit := emit (EError m).
Definition exit {A : Type} (c : Z) : M A := λ w, mkRun [EExit c] w (Exit c).

Fixpoint forEach {A : Type} (f : A → M unit) (l : list A) : M unit :=
  match l with
  | [] => mret tt
  | a :: l' => f a ;; forEach f l'
  end.

(** ** [app.ts] *)
Section App.
Variable x : Externals.
Variable inv : Invocation.

(** Calls of the imported functions, each leaving its event in the trace. *)
Definition callRevertLastChanges : M unit :=
  w ← getWorld;
  let '(fs', h', r) := revertLastChanges x (files w, history w) in
  putWorld {| files := fs'; history := h'; keys := keys w |} ;;
  emit (ERevertLastChanges r) ;;
  liftResult r ;;
  mret tt.

Definition callProcessFiles (inputs : list string) (includeImports : bool)
  : M ProcessedFiles :=
  emit (EProcessFiles inputs includeImports) ;;
  w ← getWorld;
  liftResult (processFiles x inputs includeImports (files w)).

Definition callWriteFileSync (path data : string) : M unit :=
  emit (EWriteFileSync path data) ;;
  w ← getWorld;
  match writeFile (files w) path data with
  | Some fs' => putWorld {| files := fs'; history := history w; keys := keys w |}
  | None => throw "EACCES"
  end.

Definition callCheckAPIKey (provider : string) : M bool :=
  w ← getWorld;
  let present := checkAPIKey x provider (keys w) in
  emit (ECheckAPIKey provider present) ;;
  mret present.

Definition callGetAndSetAPIKey (provider : string) : M unit :=
  emit (EGetAndSetAPIKey provider) ;;
  w ← getWorld;
  ks ← liftResult (getAndSetAPIKey x provider (keys w));
  putWorld {| files := files w; history := history w; keys := ks |}.

(** [confirm({...})] *)
Definition callConfirm : M bool :=
  match confirmAnswer inv with
  | Some b => emit (EConfirm b) ;; mret b
  | None => throw "ExitPromptError"
  end.

(** [input({..., validate})]: the prompt returns the first entry that the
    validator [input.trim() !== ""] lets through. *)
Definition validate (input : string) : bool :=
  negb (String.eqb (JS.trim input) "").

Definition callInput : M string :=
  match List.find validate (taskAttempts inv) with
  | Some task => emit (EInput task) ;; mret task
  | None => throw "ExitPromptError"
  end.

(** [askAI(...)] with the [for await] loop that writes its chunks *)
Definition streamAnswer (code question name provider : string) : M unit :=
  emit (EAskAI code question name provider) ;;
  let '(chunks, failure) := askAI x code question name provider in
  forEach (λ chunk, emit (EStdoutWrite chunk)) chunks ;;
  match failure with
  | Some e => throw e
  | None => mret tt
  end.

Definition callGetAIEdits (client : Client) (code task name : string)
  : M (list EditPacket) :=
  let r :=
    match client with
    | Claude => getAIEditsFromClaude x code task name
    | GPT => getAIEditsFromGPT x code task name
    | Fireworks => getAIEditsFromFireworks x code task name
    end in
  emit (EGetAIEdits client code task name r) ;;
  liftResult r.

Definition callVerifyEditStream (stream : list EditPacket) (provider : string)
  : M (list VerificationResult) :=
  emit (EVerifyEditStream stream provider) ;;
  liftResult (verifyEditStream x stream provider).

Definition callProcessEditStream (stream : list VerificationResult) : M unit :=
  emit (EProcessEditStream stream) ;;
  w ← getWorld;
  let '(fs', h', r) := processEditStream x stream (files w, history w) in
  putWorld {| files := fs'; history := h'; keys := keys w |} ;;
  liftResult r.

(** [listAvailableModels] *)
Definition listAvailableModels : M unit :=
  log (MsgAvailableModels (map nickName (models x))) ;;
  log MsgAppendHint.

(** [checkAndSetAPIKey] *)
Definition checkAndSetAPIKey (selectedModel : Model) : M unit :=
  let provider := provider selectedModel in
  apiKeyPresent ← callCheckAPIKey provider;
  (if negb (apiKeyPresent : bool) then callGetAndSetAPIKey provider else mret tt) ;;
  log (MsgKeySet provider).

(** Lines 61 to 71 of [main]: flags, the filter, and the choice of the model.
    [inputs.pop()] is [undefined] on an empty array, and so is [models[0]] on
    an empty table. *)
Definition isFileArg (input : string) : bool :=
  negb (JS.startsWith input "-") && JS.truthy input.

Definition pop (inputs : list string) : option string * list string :=
  (last inputs, removelast inputs).

Definition findModel (modelNickname : option string) : option Model :=
  match modelNickname with
  | Some n => List.find (λ model, String.eqb (nickName model) n) (models x)
  | None => None
  end.

Record Selection : Type := mkSelection {
  printCodeAndExit : bool;
  includeImports : bool;
  selectedModel : option Model;
  fileInputs : list string
}.

Definition parseArgs (args : list string) : Selection :=
  let printCodeAndExit := bool_decide ("-p" ∈ args) in
  let includeImports := bool_decide ("-a" ∈ args) in
  let inputs := filter (λ input, isFileArg input = true) args in
  let '(modelNickname, inputs) := pop inputs in
  match findModel modelNickname with
  | Some m =>
      {| printCodeAndExit := printCodeAndExit; includeImports := includeImports;
         selectedModel := Some m; fileInputs := inputs |}
  | None =>
      let inputs :=
        match modelNickname with
        | Some n => if JS.truthy n then (inputs ++ [n])%list else inputs
        | None => inputs
        end in
      {| printCodeAndExit := printCodeAndExit; includeImports := includeImports;
         selectedModel := head (models x); fileInputs := inputs |}
  end.

Definition estimatedCosts (estimatedTokens : Z) (selectedModel : Model) : JS.number :=
  (JS.ofInteger estimatedTokens / 1000000 * inputCPM selectedModel
   + outputCPM selectedModel * (JS.ofInteger (outputLength selectedModel) / 10000000))%float.

Fixpoint repeat_string (s : string) (n : nat) : string :=
  match n with
  | O => ""
  | S n' => s +:+ repeat_string s n'
  end.

(** The edit branch of [main], lines 156 to 189 *)
Definition editPipeline (selectedModel : Model) (code task : string) : M unit :=
  editPacketStream ←
    (if String.eqb (provider selectedModel) "anthropic" then
       callGetAIEdits Claude code task (name selectedModel)
     else if String.eqb (provider selectedModel) "openai" then
       callGetAIEdits GPT code task (name selectedModel)
     else if String.eqb (provider selectedModel) "fireworks" then
       callGetAIEdits Fireworks code task (name selectedModel)
     else
       error (MsgUnsupportedProvider (provider selectedModel)) ;; exit 1);
  emit ENewEditProcessor ;;
  verifierKey ← callCheckAPIKey (provider (preferredVerifierModel x));
  verifiedEditStream ←
    callVerifyEditStream editPacketStream
      (if (verifierKey : bool) then provider (preferredVerifierModel x)
       else provider selectedModel);
  callProcessEditStream verifiedEditStream.

(** [countTokens(processedFiles.code + taskPrompt("x".repeat(100)))] *)
Definition estimateTokens (processedFiles : ProcessedFiles) : Z :=
  countTokens x (code processedFiles +:+ taskPrompt x (repeat_string "x" 100)).

(** Lines 96 to 141: the key, the size check, the estimate and the prompt
    for the task *)
Definition preamble (selectedModel : Model) (processedFiles : ProcessedFiles)
  : M string :=
  checkAndSetAPIKey selectedModel ;;
  let estimatedTokens := estimateTokens processedFiles in
  let overflowCheck := checkContextWindowOverflow estimatedTokens selectedModel in
  (if overflow overflowCheck then
     log (MsgOverflowWarning
            (default 0 (overflowTokens overflowCheck))
            (default JS.NaN (overflowPercentage overflowCheck))) ;;
     continueAnyway ← callConfirm;
     if negb (continueAnyway : bool) then log MsgReduceInput ;; exit 0 else mret tt
   else mret tt) ;;
  log (MsgLoaded (count processedFiles) estimatedTokens
         (estimatedCosts estimatedTokens selectedModel)) ;;
  callInput.

(** The question branch, lines 144 to 154 *)
Definition answerQuestion (selectedModel : Model) (code task : string) : M unit :=
  let question := JS.trim (JS.slice 4 task) in
  streamAnswer code question (name selectedModel) (provider selectedModel) ;;
  log MsgNewline.

(** Lines 96 to 196, with a model in hand *)
Definition session (selectedModel : Model) (processedFiles : ProcessedFiles) : M unit :=
  task ← preamble selectedModel processedFiles;
  (if JS.startsWith (JS.toLowerCase task) "ask " then
     answerQuestion selectedModel (code processedFiles) task
   else editPipeline selectedModel (code processedFiles) task) ;;
  log MsgLeaveStar.

Definition main : M unit :=
  let inputs := argv inv in
  if bool_decide (head inputs = Some "revert") then callRevertLastChanges
  else
    let sel := parseArgs inputs in
    if bool_decide (length (fileInputs sel) = 0%nat) then
      error MsgNoFiles ;; exit 1
    else
      processedFiles ← callProcessFiles (fileInputs sel) (includeImports sel);
      if printCodeAndExit sel then
        callWriteFileSync "compiled-code.txt" (code processedFiles) ;;
        log MsgSaved ;;
        exit 0
      else
        log MsgWelcome ;;
        listAvailableModels ;;
        match selectedModel sel with
        | None => throw "TypeError"
        | Some selectedModel =>
            log (MsgSelectedModel selectedModel) ;;
            session selectedModel processedFiles
        end.

(** [main().catch(console.error)] *)
Definition program : M unit :=
  λ w,
    let r := main w in
    match outcome r with
    | Throw e => mkRun (trace r ++ [EError (MsgUncaught e)]) (world r) (Return tt)
    | _ => r
    end.

End App.

(** ** Vocabulary for statements about a run *)

(** Events of the edit branch: the provider call, the construction of the
    [EditProcessor], the verification pass and the application. *)
Definition inEditPipeline (e : Event) : bool :=
  match e with
  | EGetAIEdits _ _ _ _ _ | ENewEditProcessor | EVerifyEditStream _ _
  | EProcessEditStream _ => true
  | _ => false
  end.

(** Events that write files: a revert, [fs.writeFileSync], the applier. *)
Definition touchesFiles (e : Event) : bool :=
  match e with
  | ERevertLastChanges _ | EWriteFileSync _ _ | EProcessEditStream _ => true
  | _ => false
  end.

Definition isInput (e : Event) : bool :=
  match e with EInput _ => true | _ => false end.

Definition aside (e : Event) : Prop :=
  inEditPipeline e = false ∧ touchesFiles e = false ∧ isInput e = false.

(** The client that the provider of a model leads to (lines 157 to 180) *)
Definition clientOf (provider : string) : option Client :=
  if String.eqb provider "anthropic" then Some Claude
  else if String.eqb provider "openai" then Some GPT
  else if String.eqb provider "fireworks" then Some Fireworks
  else None.

Definition getAIEdits (x : Externals) (c : Client) (code task name : string)
  : Result (list EditPacket) :=
  match c with
  | Claude => getAIEditsFromClaude x code task name
  | GPT => getAIEditsFromGPT x code task name
  | Fireworks => getAIEditsFromFireworks x code task name
  end.

(** The second argument of [verifyEditStream] (lines 185 to 187) *)
Definition verifierProvider (x : Externals) (m : Model) (ks : gmap string string)
  : string :=
  if checkAPIKey x (provider (preferredVerifierModel x)) ks
  then provider (preferredVerifierModel x) else provider m.

Definition prepend {A : Type} (t : list Event) (r : Run A) : Run A :=
  mkRun (t ++ trace r) (world r) (outcome r).

(** The test of line 143 *)
Definition asksQuestion (task : string) : bool :=
  JS.startsWith (JS.toLowerCase task) "ask ".

Definition branch (x : Externals) (m : Model) (pf : ProcessedFiles) (task : string)
  : M unit :=
  if asksQuestion task then answerQuestion x m (code pf) task
  else editPipeline x m (code pf) task.

(** The last line of [main] is reached when nothing before it ended the run. *)
Definition closing {A : Type} (o : Outcome A) : list Event :=
  match o with Return _ => [ELog MsgLeaveStar] | _ => [] end.

(** What a run prints before it turns to the API key *)
Definition opening (x : Externals) (inv : Invocation) (m : Model) : list Event :=
  [EProcessFiles (fileInputs (parseArgs x (argv inv)))
     (includeImports (parseArgs x (argv inv)));
   ELog MsgWelcome;
   ELog (MsgAvailableModels (map nickName (models x)));
   ELog MsgAppendHint;
   ELog (MsgSelectedModel m)].

(** ** The history store *)
Module History.

(** Modelled from the spec: [revertLastChanges] of [edit-history], which is
    imported by [app.ts] and not among the sources.  Sections 4.5 and 7: the
    store is a single slot; a revert overwrites each affected file with its
    stored snapshot, verifies the restored byte count, reports success or
    failure per file and then clears the slot; a file that no longer exists
    is reported as a failure; with nothing recorded the revert is a no-op
    that is reported as such. *)
Definition restoreFile (path snapshot : string)
    (acc : FS * list (string * RestoreStatus)) : FS * list (string * RestoreStatus) :=
  match readFile acc.1 path with
  | None => (acc.1, (path, restoreFailed) :: acc.2)
  | Some _ =>
      match writeFile acc.1 path snapshot with
      | None => (acc.1, (path, restoreFailed) :: acc.2)
      | Some fs' =>
          let sameBytes :=
            match readFile fs' path with
            | Some now => Nat.eqb (String.length now) (String.length snapshot)
            | None => false
            end in
          (fs', (path, if sameBytes then restored else restoreFailed) :: acc.2)
      end
  end.

Definition restoreAll (snapshots : gmap string string) (fs : FS)
  : FS * list (string * RestoreStatus) :=
  map_fold restoreFile (fs, []) snapshots.

Definition revertLastChanges (store : FS * option HistoryEntry)
  : FS * option HistoryEntry * Result RevertReport :=
  match store.2 with
  | None => (store.1, None, Ok NothingToRevert)
  | Some entry =>
      let r := restoreAll (affectedFiles entry) store.1 in
      (r.1, None, Ok (Reverted r.2))
  end.

End History.

(** ** The compiled document, as far as the applier needs it *)
Module Doc.

(** Modelled from the spec: the [files] table of a SourceDocument (section
    3), which [process-files] builds; it says where each file begins in the
    global line-tag space. *)
Record FileEntry : Type := mkFileEntry {
  path : string;
  startLine : Z;
  lineCount : Z
}.

(** The local line number (from 1) that a global line tag names in [path],
    when the tag lies in the range of that file. *)
Definition localLine (files : list FileEntry) (p : string) (tag : Z) : option nat :=
  match List.find (λ e, String.eqb (path e) p) files with
  | Some e =>
      if ((startLine e <=? tag) && (tag <? startLine e + lineCount e))%Z
      then Some (Z.to_nat (tag - startLine e + 1))
      else None
  | None => None
  end.

End Doc.

(** ** The applier *)
Module Applier.

(** Modelled from the spec: [EditProcessor.processEditStream] of
    [edit-processor], which is imported by [app.ts] and not among the
    sources.  Section 4.4: the packets that the verifier accepted or
    corrected are applied file by file, those of one file in descending
    order of start line; a file's full text is captured into the history
    entry before the first packet that touches it is written; a write that
    fails is counted and the run goes on; the caller gets the counts of
    applied, skipped and failed packets. *)
Record Counts : Type := mkCounts {
  applied : nat;
  skipped : nat;
  failed : nat
}.

Record RunState : Type := mkRunState {
  disk : FS;
  snapshots : gmap string string;
  counts : Counts
}.

Definition newline : ascii := Ascii.ascii_of_nat 10.

Fixpoint splitLines (text : string) : list string :=
  match text with
  | EmptyString => [EmptyString]
  | String c rest =>
      if Ascii.eqb c newline then EmptyString :: splitLines rest
      else
        match splitLines rest with
        | l :: ls => String c l :: ls
        | [] => [String c EmptyString]
        end
  end.

Definition joinLines (lines : list string) : string :=
  String.concat (String newline EmptyString) lines.

(** A packet whose verdict lets it through *)
Definition approved (r : VerificationResult) : option EditPacket :=
  match verdict r with
  | accepted => Some (proposed r)
  | corrected fixed => Some fixed
  | rejected _ => None
  end.

(** The local range [(first, last)] of a packet, lines counted from 1; for
    [insertAfterLine] both are the line after which the text goes. *)
Definition resolve (doc : list Doc.FileEntry) (p : EditPacket) : option (nat * nat) :=
  match operation p, endLine p with
  | insertAfterLine, _ =>
      s ← Doc.localLine doc (filePath p) (startLine p); Some (s, s)
  | _, Some e =>
      if (startLine p <=? e)%Z then
        s ← Doc.localLine doc (filePath p) (startLine p);
        e' ← Doc.localLine doc (filePath p) e;
        Some (s, e')
      else None
  | _, None => None
  end.

Definition editLines (p : EditPacket) (range : nat * nat) (lines : list string)
  : list string :=
  match operation p with
  | replaceLines => take (range.1 - 1)%nat lines ++ newContent p ++ drop range.2 lines
  | insertAfterLine => take range.1 lines ++ newContent p ++ drop range.1 lines
  | deleteLines => take (range.1 - 1)%nat lines ++ drop range.2 lines
  end.

Definition bump (what : Counts → Counts) (st : RunState) : RunState :=
  {| disk := disk st; snapshots := snapshots st; counts := what (counts st) |}.
Definition oneApplied (c : Counts) : Counts :=
  {| applied := S (applied c); skipped := skipped c; failed := failed c |}.
Definition oneSkipped (c : Counts) : Counts :=
  {| applied := applied c; skipped := S (skipped c); failed := failed c |}.
Definition oneFailed (c : Counts) : Counts :=
  {| applied := applied c; skipped := skipped c; failed := S (failed c) |}.

(** One packet: resolve the anchor, capture the file if this run has not
    done so yet, then rewrite the file. *)
Definition applyPacket (doc : list Doc.FileEntry) (st : RunState) (p : EditPacket)
  : RunState :=
  match resolve doc p with
  | None => bump oneSkipped st
  | Some range =>
      match readFile (disk st) (filePath p) with
      | None => bump oneFailed st
      | Some text =>
          let snaps :=
            match snapshots st !! filePath p with
            | Some _ => snapshots st
            | None => <[filePath p := text]> (snapshots st)
            end in
          match writeFile (disk st) (filePath p)
                  (joinLines (editLines p range (splitLines text))) with
          | None =>
              {| disk := disk st; snapshots := snaps; counts := oneFailed (counts st) |}
          | Some fs' =>
              {| disk := fs'; snapshots := snaps; counts := oneApplied (counts st) |}
          end
      end
  end.

(** Descending order of start line; packets with the same start line keep
    their order of arrival. *)
Fixpoint insertDescending (p : EditPacket) (l : list EditPacket) : list EditPacket :=
  match l with
  | [] => [p]
  | q :: l' =>
      if (startLine q <=? startLine p)%Z then p :: l else q :: insertDescending p l'
  end.

Definition sortDescending (l : list EditPacket) : list EditPacket :=
  foldr insertDescending [] l.

Definition packetsOf (path : string) (packets : list EditPacket) : list EditPacket :=
  filter (λ p, filePath p = path) packets.

Definition applyFile (doc : list Doc.FileEntry) (packets : list EditPacket)
    (st : RunState) (path : string) : RunState :=
  foldl (applyPacket doc) st (sortDescending (packetsOf path packets)).

Definition applyRun (doc : list Doc.FileEntry) (stream : list VerificationResult)
    (fs : FS) : RunState :=
  let packets := omap approved stream in
  let start :=
    {| disk := fs; snapshots := ∅;
       counts := {| applied := 0; skipped := (length stream - length packets)%nat;
                    failed := 0 |} |} in
  foldl (applyFile doc packets) start (remove_dups (map filePath packets)).

(** The slot after a run: the entry of this run once a file was captured,
    the former entry otherwise. *)
Definition slotAfter (now : Z) (st : RunState) (former : option HistoryEntry)
  : option HistoryEntry :=
  if decide (snapshots st = ∅) then former
  else Some {| timestamp := now; affectedFiles := snapshots st |}.

Definition processEditStream (doc : list Doc.FileEntry) (now : Z)
    (stream : list VerificationResult) (store : FS * option HistoryEntry)
  : FS * option HistoryEntry * Result unit :=
  let st := applyRun doc stream store.1 in
  (disk st, slotAfter now st store.2, Ok tt).

(** What a run keeps true of the disk and of its snapshots, with respect to
    the files [fs0] it started from. *)
Record Captured (fs0 : FS) (st : RunState) : Prop := mkCaptured {
  captured_readonly : readonly (disk st) = readonly fs0;
  captured_untouched :
    ∀ p, snapshots st !! p = None → contents (disk st) !! p = contents fs0 !! p;
  captured_original :
    ∀ p t, snapshots st !! p = Some t →
           contents fs0 !! p = Some t ∧ is_Some (contents (disk st) !! p);
  captured_protected :
    ∀ p, p ∈ readonly fs0 → contents (disk st) !! p = contents fs0 !! p
}.

End Applier.

(** ** The packet stream normalizer *)
Module Normalizer.

(** Modelled from the spec: the Packet Stream Normalizer (section 4.2), which
    lives in the provider clients and is not among the sources.  The
    fragments are one logical text; the normalizer keeps the unconsumed
    trailing text between calls and emits a packet as soon as the
    terminating marker of its record has arrived; a record that does not
    parse is skipped and counted.  The spec fixes neither the marker nor the
    syntax inside a record: both are parameters. *)
Section Normalizer.
Variable marker : string.
Variable parseRecord : string → option EditPacket.

(** The text before the first occurrence of the marker, and the text after
    it. *)
Fixpoint findMarker (s : string) : option (string * string) :=
  if String.prefix marker s then Some (EmptyString, JS.slice (String.length marker) s)
  else
    match s with
    | EmptyString => None
    | String c s' =>
        match findMarker s' with
        | Some (before, after) => Some (String c before, after)
        | None => None
        end
    end.

(** Cut complete records off the front of the buffer, as long as there are
    any; [fuel] bounds the number of records. *)
Fixpoint drain (fuel : nat) (buf : string) : list string * string :=
  match fuel with
  | O => ([], buf)
  | S fuel' =>
      match findMarker buf with
      | Some (record, rest) =>
          let r := drain fuel' rest in (record :: r.1, r.2)
      | None => ([], buf)
      end
  end.

Definition scan (buf : string) : list string * string :=
  drain (String.length buf) buf.

Record State : Type := mkState {
  buffer : string;
  malformed : nat
}.

Definition initial : State := {| buffer := EmptyString; malformed := 0 |}.

Definition parseAll (records : list string) : list EditPacket :=
  omap parseRecord records.

Definition countMalformed (records : list string) : nat :=
  length (filter (λ r, parseRecord r = None) records).

(** One call: a fragment arrives, the packets that it completes leave. *)
Definition feed (st : State) (fragment : string) : State * list EditPacket :=
  let r := scan (buffer st +:+ fragment) in
  ({| buffer := r.2; malformed := (malformed st + countMalformed r.1)%nat |},
   parseAll r.1).

Fixpoint feedAll (st : State) (fragments : list string) : State * list EditPacket :=
  match fragments with
  | [] => (st, [])
  | fragment :: rest =>
      let r := feed st fragment in
      let r' := feedAll r.1 rest in
      (r'.1, (r.2 ++ r'.2)%list)
  end.

(** The packets that leave the normalizer while the fragments arrive *)
Definition normalize (fragments : list string) : list EditPacket :=
  (feedAll initial fragments).2.

(** The fragments as one logical text *)
Definition wholeStream (fragments : list string) : string :=
  foldr String.append EmptyString fragments.

(** The stream in the words of the spec, without reference to the scan.  A
    complete record is the text of a record with its terminating marker,
    and the marker that terminates a record is the first one after the
    start of the record.  A stream consists of its complete records, one
    after the other, and of trailing partial text, in which no marker
    occurs.  It is well formed when every complete record parses. *)
Definition occursIn (text : string) : Prop :=
  ∃ before after, text = before +:+ marker +:+ after.

Definition terminated (record : string) : Prop :=
  ∀ before after, record +:+ marker = before +:+ marker +:+ after → before = record.

Fixpoint joinRecords (records : list string) (partial : string) : string :=
  match records with
  | [] => partial
  | record :: rest => record +:+ marker +:+ joinRecords rest partial
  end.

Record consistsOf (stream : string) (records : list string) (partial : string)
  : Prop := mkConsistsOf {
  stream_text : stream = joinRecords records partial;
  stream_records : Forall terminated records;
  stream_partial : ¬ occursIn partial
}.

Definition wellFormed (records : list string) : Prop :=
  Forall (λ r, is_Some (parseRecord r)) records.

End Normalizer.
End Normalizer.

(** ** A small installation, used to run the definitions *)
Module Sample.

Definition sonnet : Model :=
  {| name := "claude-3-5-sonnet-20240620"; nickName := "sonnet35";
     provider := "anthropic"; contextWindow := 200000; outputLength := 8192;
     inputCPM := 3%float; outputCPM := 15%float |}.

Definition gpt4o : Model :=
  {| name := "gpt-4o"; nickName := "4o"; provider := "openai";
     contextWindow := 128000; outputLength := 4096;
     inputCPM := 5%float; outputCPM := 15%float |}.

Definition doc : list Doc.FileEntry :=
  [ {| Doc.path := "a.txt"; Doc.startLine := 1; Doc.lineCount := 5 |} ].

Definition lf : string := String Applier.newline EmptyString.

Definition aText : string :=
  "line1" +:+ lf +:+ "line2" +:+ lf +:+ "line3" +:+ lf +:+ "line4" +:+ lf +:+ "line5".

Definition disk : FS :=
  {| contents := {[ "a.txt" := aText ]}; readonly := ∅ |}.

Definition replace23 : EditPacket :=
  {| filePath := "a.txt"; operation := replaceLines; startLine := 2;
     endLine := Some 3; newContent := ["X"; "Y"; "Z"]; rationale := None |}.

Definition insert1 : EditPacket :=
  {| filePath := "a.txt"; operation := insertAfterLine; startLine := 1;
     endLine := None; newContent := ["H"]; rationale := None |}.

Definition edits : list EditPacket := [replace23; insert1].

Definition verified : list VerificationResult :=
  map (λ p, {| proposed := p; verdict := accepted |}) edits.

(** Every file counts as one line of compiled text; keys are stored under
    the provider name, and the user types the key "k". *)
Definition externals : Externals :=
  {| models := [sonnet; gpt4o];
     preferredVerifierModel := sonnet;
     processFiles := λ inputs _ _,
       Ok {| code := "1: line1"; count := Z.of_nat (length inputs) |};
     checkAPIKey := λ provider ks, bool_decide (is_Some (ks !! provider));
     getAndSetAPIKey := λ provider ks, Ok (<[provider := "k"]> ks);
     countTokens := λ text, Z.of_nat (String.length text);
     taskPrompt := λ task, task;
     askAI := λ _ _ _ _, (["an"; "swer"], None);
     getAIEditsFromClaude := λ _ _ _, Ok edits;
     getAIEditsFromGPT := λ _ _ _, Ok edits;
     getAIEditsFromFireworks := λ _ _ _, Ok edits;
     verifyEditStream := λ stream _,
       Ok (map (λ p, {| proposed := p; verdict := accepted |}) stream);
     processEditStream := Applier.processEditStream doc 0;
     revertLastChanges := History.revertLastChanges |}.

Definition machine : World :=
  {| files := disk; history := None; keys := ∅ |}.

Definition invoke (args : list string) (task : string) : Invocation :=
  {| argv := args; confirmAnswer := Some true; taskAttempts := [""; task] |}.

(** A record syntax for the normalizer: records end in ";", and a record
    parses when it is the name of an operation. *)
Definition parseOp (r : string) : option EditPacket :=
  if String.eqb r "delete" then
    Some {| filePath := "a.txt"; operation := deleteLines; startLine := 1;
            endLine := Some 1; newContent := []; rationale := None |}
  else if String.eqb r "insert" then Some insert1
  else None.

End Sample.

(** ** Laws of a run

    What holds of every run of [main]: which events it may contain, that an
    exit ends it, and what it leaves unchanged on the machine. *)
Definition promptsKey (e : Event) : bool :=
  match e with EGetAndSetAPIKey _ => true | _ => false end.

Definition isExit (e : Event) : bool :=
  match e with EExit _ => true | _ => false end.

Definition tidy {A : Type} (r : Run A) : Prop :=
  match outcome r with
  | Exit c => ∃ pre, trace r = pre ++ [EExit c] ∧ Forall (λ e, isExit e = false) pre
  | _ => Forall (λ e, isExit e = false) (trace r)
  end.

Definition sameDisk (w w' : World) : Prop :=
  files w' = files w ∧ history w' = history w.

Record lawfulRun {A : Type} (P : Event → Prop) (Q : A → Prop) (w : World) (r : Run A)
  : Prop := mkLawfulRun {
  law_events : Forall P (trace r);
  law_tidy : tidy r;
  law_disk : Forall (λ e, touchesFiles e = false) (trace r) → sameDisk w (world r);
  law_keys : Forall (λ e, promptsKey e = false) (trace r) → keys (world r) = keys w;
  law_result : ∀ a, outcome r = Return a → Q a
}.

Definition lawful {A : Type} (P : Event → Prop) (Q : A → Prop) (m : M A) : Prop :=
  ∀ w, lawfulRun P Q w (m w).

(** The events that a run of [main] started on [w] may contain, each with
    what the code fixes about its arguments. *)
Section Possible.
Variable x : Externals.
Variable inv : Invocation.
Variable w : World.

Definition selected (m : Model) : Prop :=
  selectedModel (parseArgs x (argv inv)) = Some m.

Definition compiledTo (pf : ProcessedFiles) : Prop :=
  processFiles x (fileInputs (parseArgs x (argv inv)))
    (includeImports (parseArgs x (argv inv))) (files w) = Ok pf.

Inductive possible : Event → Prop :=
| possible_revert :
    head (argv inv) = Some "revert" →
    possible (ERevertLastChanges (revertLastChanges x (files w, history w)).2)
| possible_processFiles :
    head (argv inv) ≠ Some "revert" →
    fileInputs (parseArgs x (argv inv)) ≠ [] →
    possible (EProcessFiles (fileInputs (parseArgs x (argv inv)))
                (includeImports (parseArgs x (argv inv))))
| possible_write pf :
    "-p" ∈ argv inv → compiledTo pf →
    possible (EWriteFileSync "compiled-code.txt" (code pf))
| possible_log msg : possible (ELog msg)
| possible_noFiles :
    fileInputs (parseArgs x (argv inv)) = [] → possible (EError MsgNoFiles)
| possible_unsupported m :
    selected m → clientOf (provider m) = None →
    possible (EError (MsgUnsupportedProvider (provider m)))
| possible_checkKey m present :
    selected m → possible (ECheckAPIKey (provider m) present)
| possible_checkVerifierKey present :
    possible (ECheckAPIKey (provider (preferredVerifierModel x)) present)
| possible_getKey m : selected m → possible (EGetAndSetAPIKey (provider m))
| possible_confirm m pf answer :
    selected m → compiledTo pf →
    overflow (checkContextWindowOverflow (estimateTokens x pf) m) = true →
    possible (EConfirm answer)
| possible_input task : validate task = true → possible (EInput task)
| possible_askAI m pf task :
    selected m → compiledTo pf → validate task = true → asksQuestion task = true →
    possible (EAskAI (code pf) (JS.trim (JS.slice 4 task)) (name m) (provider m))
| possible_stdout m pf task chunk :
    selected m → compiledTo pf → asksQuestion task = true →
    chunk ∈ (askAI x (code pf) (JS.trim (JS.slice 4 task)) (name m) (provider m)).1 →
    possible (EStdoutWrite chunk)
| possible_getAIEdits m pf task c :
    selected m → compiledTo pf → validate task = true → asksQuestion task = false →
    clientOf (provider m) = Some c →
    possible (EGetAIEdits c (code pf) task (name m)
                (getAIEdits x c (code pf) task (name m)))
| possible_newEditProcessor : possible ENewEditProcessor
| possible_verify m raw p :
    selected m →
    p = provider (preferredVerifierModel x) ∨ p = provider m →
    possible (EVerifyEditStream raw p)
| possible_apply raw p s :
    verifyEditStream x raw p = Ok s → possible (EProcessEditStream s)
| possible_exit c : c = 0 ∨ c = 1 → possible (EExit c).

End Possible.

(** The machine after the key was stored, and after a file was written *)
Definition withKeys (w : World) (ks : gmap string string) : World :=
  {| files := files w; history := history w; keys := ks |}.

Definition withFiles (w : World) (fs : FS) : World :=
  {| files := fs; history := history w; keys := keys w |}.

(** The warning of lines 107 to 113 and the line of lines 129 to 135 *)
Definition overflowWarning (x : Externals) (m : Model) (pf : ProcessedFiles) : Event :=
  ELog (MsgOverflowWarning
          (default 0 (overflowTokens (checkContextWindowOverflow (estimateTokens x pf) m)))
          (default JS.NaN
             (overflowPercentage (checkContextWindowOverflow (estimateTokens x pf) m)))).

Definition loaded (x : Externals) (m : Model) (pf : ProcessedFiles) : Event :=
  ELog (MsgLoaded (count pf) (estimateTokens x pf)
          (estimatedCosts (estimateTokens x pf) m)).

(** Lines 125 to 141 as a run: the prompt for the task, after the events [t] *)
Definition askTask (x : Externals) (inv : Invocation) (m : Model) (pf : ProcessedFiles)
    (t : list Event) (w : World) : Run string :=
  match find validate (taskAttempts inv) with
  | Some task => mkRun (t ++ [loaded x m pf; EInput task]) w (Return task)
  | None => mkRun (t ++ [loaded x m pf]) w (Throw "ExitPromptError")
  end.

(** Lines 102 to 141 as a run: the size check, then the prompt *)
Definition sizeCheck (x : Externals) (inv : Invocation) (m : Model) (pf : ProcessedFiles)
    (t : list Event) (w : World) : Run string :=
  if overflow (checkContextWindowOverflow (estimateTokens x pf) m) then
    match confirmAnswer inv with
    | None => mkRun (t ++ [overflowWarning x m pf]) w (Throw "ExitPromptError")
    | Some false =>
        mkRun (t ++ [overflowWarning x m pf; EConfirm false; ELog MsgReduceInput; EExit 0])
          w (Exit 0)
    | Some true => askTask x inv m pf (t ++ [overflowWarning x m pf; EConfirm true]) w
    end
  else askTask x inv m pf t w.

(** Events by the part of [main] they belong to: before a session, between
    the opening and the prompt for the task, and after the task. *)
Definition early (e : Event) : bool :=
  match e with
  | ERevertLastChanges _ | EProcessFiles _ _ | EWriteFileSync _ _ | ELog _
  | EError MsgNoFiles | EExit _ => true
  | _ => false
  end.

Definition preliminary (e : Event) : bool :=
  match e with
  | ECheckAPIKey _ _ | EGetAndSetAPIKey _ | ELog _ | EConfirm true => true
  | _ => false
  end.

Definition afterTask (e : Event) : bool :=
  match e with
  | EAskAI _ _ _ _ | EStdoutWrite _ | ELog _ | EGetAIEdits _ _ _ _ _
  | ENewEditProcessor | ECheckAPIKey _ _ | EVerifyEditStream _ _
  | EProcessEditStream _ | EError (MsgUnsupportedProvider _) | EExit _ => true
  | _ => false
  end.

(** A string of white space only *)
Fixpoint blank (s : string) : bool :=
  match s with
  | EmptyString => true
  | String c s' => JS.is_white c && blank s'
  end.

(** ** A second installation: a model whose budget is five tokens and a
    model of a provider without a client *)
Module Scenario.

Definition tiny : Model :=
  {| name := "tiny-1"; nickName := "tiny"; provider := "openai";
     contextWindow := 10; outputLength := 5;
     inputCPM := 1%float; outputCPM := 1%float |}.

Definition homegrown : Model :=
  {| name := "llama"; nickName := "local"; provider := "ollama";
     contextWindow := 100000; outputLength := 4096;
     inputCPM := 0%float; outputCPM := 0%float |}.

Definition withModels (x : Externals) (ms : list Model) : Externals :=
  {| models := ms;
     preferredVerifierModel := preferredVerifierModel x;
     processFiles := processFiles x;
     checkAPIKey := checkAPIKey x;
     getAndSetAPIKey := getAndSetAPIKey x;
     countTokens := countTokens x;
     taskPrompt := taskPrompt x;
     askAI := askAI x;
     getAIEditsFromClaude := getAIEditsFromClaude x;
     getAIEditsFromGPT := getAIEditsFromGPT x;
     getAIEditsFromFireworks := getAIEditsFromFireworks x;
     verifyEditStream := verifyEditStream x;
     processEditStream := processEditStream x;
     revertLastChanges := revertLastChanges x |}.

Definition externals : Externals :=
  withModels Sample.externals [Sample.sonnet; Sample.gpt4o; tiny; homegrown].

(** The user declines to go on after the overflow warning. *)
Definition declining : Invocation :=
  {| argv := ["a.txt"; "tiny"]; confirmAnswer := Some false; taskAttempts := ["fix it"] |}.

Definition unsupported : Invocation :=
  {| argv := ["a.txt"; "local"]; confirmAnswer := Some true; taskAttempts := ["fix it"] |}.

End Scenario.

(** * Properties *)

(** ** The string helpers on small inputs *)
Example toLowerCase_ask : JS.toLowerCase "Ask Me" = "ask me".
Proof. reflexivity. Qed.

Example trim_question : JS.trim (JS.slice 4 "ask  what? ") = "what?".
Proof. reflexivity. Qed.

Example validate_blank : validate "   " = false ∧ validate " x " = true.
Proof. split; reflexivity. Qed.

Example isFileArg_flags :
  filter (λ input, isFileArg input = true) ["src"; "-a"; ""; "4o"; "-p"] = ["src"; "4o"].
Proof. reflexivity. Qed.

(** ** The context-window check *)

(** C8: [checkContextWindowOverflow] reports an overflow exactly when the
    input tokens exceed the context window minus the output length; the
    overflow tokens are then the excess over that budget; without overflow
    the result carries neither overflow field. *)
Theorem checkContextWindowOverflow_spec (inputTokens : Z) (selectedModel : Model) :
  let r := checkContextWindowOverflow inputTokens selectedModel in
  let budget := contextWindow selectedModel - outputLength selectedModel in
  (overflow r = true ↔ inputTokens > budget)
  ∧ (overflow r = true → overflowTokens r = Some (inputTokens - budget))
  ∧ (overflow r = false →
     overflowTokens r = None ∧ overflowPercentage r = None).
Proof.
  unfold checkContextWindowOverflow.
  destruct (Z.ltb_spec (contextWindow selectedModel - outputLength selectedModel)
              inputTokens) as [Hlt | Hge]; simpl.
  - split; [split; [lia | reflexivity] | split; [reflexivity | discriminate]].
  - split; [split; [discriminate | lia] | split; [discriminate | auto]].
Qed.

(** With overflow the percentage field is present as well, and it is the
    overflow relative to the budget. *)
Lemma checkContextWindowOverflow_percentage (inputTokens : Z) (selectedModel : Model) :
  overflow (checkContextWindowOverflow inputTokens selectedModel) = true →
  overflowPercentage (checkContextWindowOverflow inputTokens selectedModel)
  = Some (JS.percent (inputTokens - availableTokens selectedModel)
            (availableTokens selectedModel)).
Proof.
  unfold checkContextWindowOverflow, availableTokens.
  destruct (_ <? _)%Z; simpl; [reflexivity | discriminate].
Qed.

Example overflow_sonnet :
  checkContextWindowOverflow 200000 Sample.sonnet
  = {| overflow := true; overflowTokens := Some 8192;
       overflowPercentage := Some (JS.percent 8192 191808) |}.
Proof. reflexivity. Qed.

(** The percentage is a product of doubles: the quotient 0.07 is rounded
    before it is multiplied, so seven over a hundred is not seven percent;
    over a budget of zero the percentage is infinite. *)
Example percent_rounds :
  JS.percent 7 100 = 0x1.c000000000001p+2%float ∧ JS.percent 7 100 ≠ 7%float.
Proof. split; [reflexivity | vm_compute; discriminate]. Qed.

Example percent_exact : JS.percent 50 100 = 50%float.
Proof. reflexivity. Qed.

Example percent_zero_budget : JS.percent 7 0 = infinity ∧ JS.percent 0 0 = nan.
Proof. split; reflexivity. Qed.

Example no_overflow_at_budget :
  checkContextWindowOverflow 191808 Sample.sonnet
  = {| overflow := false; overflowTokens := None; overflowPercentage := None |}.
Proof. reflexivity. Qed.

(** ** Arguments and the choice of the model *)
Lemma snoc_cases {A : Type} (l : list A) : l = [] ∨ ∃ front a, l = front ++ [a].
Proof. induction l using rev_ind; eauto. Qed.

Section Arguments.
Variable x : Externals.

Lemma isFileArg_truthy (a : string) : isFileArg a = true → JS.truthy a = true.
Proof. unfold isFileArg. intros H. apply andb_true_iff in H. tauto. Qed.

Lemma pop_snoc (front : list string) (a : string) :
  pop (front ++ [a]) = (Some a, front).
Proof. unfold pop. by rewrite last_snoc, removelast_last. Qed.

Lemma findModel_Some (a : string) (m : Model) :
  findModel x (Some a) = Some m → m ∈ models x ∧ nickName m = a.
Proof.
  simpl. intros H. apply find_some in H as [Hin Heq].
  split; [by apply list_elem_of_In | by apply String.eqb_eq].
Qed.

Lemma findModel_None (a : string) :
  findModel x (Some a) = None ↔ ∀ m, m ∈ models x → nickName m ≠ a.
Proof.
  simpl. split.
  - intros H m Hin Heq. apply list_elem_of_In in Hin.
    pose proof (find_none _ _ H m Hin) as Hf. simpl in Hf.
    apply String.eqb_neq in Hf. done.
  - intros H. destruct (find _ _) as [m|] eqn:Hf; [| done].
    apply find_some in Hf as [Hin Heq]. apply String.eqb_eq in Heq.
    apply list_elem_of_In in Hin. by destruct (H m Hin).
Qed.

(** C9: when the last argument that is not a flag is the nickname of a model
    of the table, that model is selected and the argument does not count as a
    file; otherwise the first model of the table is selected and the
    argument stays among the files. *)
Theorem parseArgs_model_choice (args front : list string) (a : string) :
  filter (λ input, isFileArg input = true) args = front ++ [a] →
  ((∃ m, m ∈ models x ∧ nickName m = a) →
   ∃ m, selectedModel (parseArgs x args) = Some m
        ∧ m ∈ models x ∧ nickName m = a
        ∧ fileInputs (parseArgs x args) = front)
  ∧ ((∀ m, m ∈ models x → nickName m ≠ a) →
     selectedModel (parseArgs x args) = head (models x)
     ∧ fileInputs (parseArgs x args) = front ++ [a]).
Proof.
  intros Hargs. unfold parseArgs. rewrite Hargs, pop_snoc.
  assert (JS.truthy a = true) as Ha.
  { apply isFileArg_truthy.
    assert (a ∈ filter (λ input, isFileArg input = true) args) as Hin
      by (rewrite Hargs; set_solver).
    by apply list_elem_of_filter in Hin as [? _]. }
  split.
  - intros (m & Hin & Hnick).
    destruct (findModel x (Some a)) as [m'|] eqn:Hfind.
    + apply findModel_Some in Hfind as [? ?]. exists m'. simpl. done.
    + exfalso. eapply findModel_None; eauto.
  - intros Hnone. apply findModel_None in Hnone. rewrite Hnone. simpl.
    by rewrite Ha.
Qed.

(** No file is left exactly when there is no argument besides flags, or when
    the only one is the nickname of a model. *)
Lemma parseArgs_no_files (args : list string) :
  fileInputs (parseArgs x args) = [] ↔
  filter (λ input, isFileArg input = true) args = []
  ∨ ∃ a m, filter (λ input, isFileArg input = true) args = [a]
           ∧ m ∈ models x ∧ nickName m = a.
Proof.
  destruct (snoc_cases (filter (λ input, isFileArg input = true) args))
    as [Hargs | (front & a & Hargs)].
  - unfold parseArgs. rewrite Hargs. simpl. split; [by left | done].
  - assert (JS.truthy a = true) as Ha.
    { apply isFileArg_truthy.
      assert (a ∈ filter (λ input, isFileArg input = true) args) as Hin
        by (rewrite Hargs; set_solver).
      by apply list_elem_of_filter in Hin as [? _]. }
    unfold parseArgs. rewrite Hargs, pop_snoc.
    destruct (findModel x (Some a)) as [m|] eqn:Hfind; simpl.
    + apply findModel_Some in Hfind as [Hin Hnick]. split.
      * intros ->. right. exists a, m. done.
      * intros [Hnil | (a' & m' & Heq & _)].
        -- by destruct front.
        -- destruct front as [|? [|? ?]]; simpl in Heq; congruence.
    + rewrite Ha. split.
      * intros Hnil. by destruct front.
      * intros [Hnil | (a' & m' & Heq & Hin & Hnick)].
        -- by destruct front.
        -- destruct front as [|? [|? ?]]; simpl in Heq; try congruence.
           injection Heq as <-. exfalso.
           apply (proj1 (findModel_None a) Hfind m' Hin Hnick).
Qed.

(** With no model nicknamed "revert", arguments that leave no file do not
    start with "revert". *)
Lemma no_files_not_revert (args : list string) :
  (∀ m, m ∈ models x → nickName m ≠ "revert") →
  fileInputs (parseArgs x args) = [] →
  head args ≠ Some "revert".
Proof.
  intros Hmodels Hnone Hhead.
  destruct args as [|a args]; [done|]. injection Hhead as ->.
  apply parseArgs_no_files in Hnone.
  rewrite filter_cons_True in Hnone by done.
  destruct Hnone as [Hnil | (a & m & Heq & Hin & Hnick)]; [done|].
  injection Heq as <- _. by apply (Hmodels m).
Qed.

End Arguments.

Lemma parseArgs_model_choice_witness :
  (selectedModel (parseArgs Sample.externals ["src"; "-a"; "4o"]) = Some Sample.gpt4o
   ∧ fileInputs (parseArgs Sample.externals ["src"; "-a"; "4o"]) = ["src"])
  ∧ selectedModel (parseArgs Sample.externals ["src"; "lib"]) = Some Sample.sonnet
  ∧ fileInputs (parseArgs Sample.externals ["src"; "lib"]) = ["src"; "lib"].
Proof.
  split.
  - destruct (parseArgs_model_choice Sample.externals
                ["src"; "-a"; "4o"] ["src"] "4o" eq_refl) as [Hsel _].
    destruct Hsel as (m & Hm & Hin & Hnick & Hfiles).
    + exists Sample.gpt4o. split; [set_solver | reflexivity].
    + split; [| exact Hfiles]. rewrite Hm. f_equal.
      apply list_elem_of_In in Hin. simpl in Hin.
      destruct Hin as [<- | [<- | []]]; [discriminate Hnick | reflexivity].
  - destruct (parseArgs_model_choice Sample.externals
                ["src"; "lib"] ["src"] "lib" eq_refl) as [_ Hdef].
    apply Hdef. intros m Hin Hnick.
    apply list_elem_of_In in Hin. simpl in Hin.
    destruct Hin as [<- | [<- | []]]; discriminate Hnick.
Defined.

(** ** Questions *)
(** Which characters [toLowerCase] sends to a given one *)
Lemma lower_char_a (c : ascii) :
  JS.lower_char c = "a"%char ↔ c = "a"%char ∨ c = "A"%char.
Proof.
  split; [| by intros [-> | ->]].
  destruct c as [[] [] [] [] [] [] [] []]; vm_compute; intros H;
    first [discriminate H | by left | by right].
Qed.

Lemma lower_char_s (c : ascii) :
  JS.lower_char c = "s"%char ↔ c = "s"%char ∨ c = "S"%char.
Proof.
  split; [| by intros [-> | ->]].
  destruct c as [[] [] [] [] [] [] [] []]; vm_compute; intros H;
    first [discriminate H | by left | by right].
Qed.

Lemma lower_char_k (c : ascii) :
  JS.lower_char c = "k"%char ↔ c = "k"%char ∨ c = "K"%char.
Proof.
  split; [| by intros [-> | ->]].
  destruct c as [[] [] [] [] [] [] [] []]; vm_compute; intros H;
    first [discriminate H | by left | by right].
Qed.

Lemma lower_char_space (c : ascii) :
  JS.lower_char c = " "%char ↔ c = " "%char.
Proof.
  split; [| by intros ->].
  destruct c as [[] [] [] [] [] [] [] []]; vm_compute; intros H;
    first [discriminate H | done].
Qed.

Lemma prefix_cons (c d : ascii) (p s : string) :
  String.prefix (String c p) (String d s) = true ↔ c = d ∧ String.prefix p s = true.
Proof.
  simpl. destruct (ascii_dec c d) as [-> | Hne]; [tauto|].
  split; [done | by intros [? _]].
Qed.

Lemma prefix_empty (s : string) : String.prefix "" s = true.
Proof. by destruct s. Qed.

(** The test of line 143 holds exactly for the tasks whose first four
    characters are "ask " up to the case of the letters. *)
Lemma asksQuestion_chars (task : string) :
  asksQuestion task = true ↔
  ∃ a s k rest,
    task = String a (String s (String k (String " " rest)))
    ∧ (a = "a"%char ∨ a = "A"%char)
    ∧ (s = "s"%char ∨ s = "S"%char)
    ∧ (k = "k"%char ∨ k = "K"%char).
Proof.
  unfold asksQuestion, JS.startsWith. split.
  - destruct task as [|a [|s [|k [|sp rest]]]]; cbn [JS.toLowerCase];
      rewrite ?prefix_cons; try done;
      try (by intros [_ ?]); try (by intros (_ & _ & ?));
      try (by intros (_ & _ & _ & ?)).
    intros (Ha & Hs & Hk & Hsp & _).
    symmetry in Ha. symmetry in Hs. symmetry in Hk. symmetry in Hsp.
    apply lower_char_a in Ha. apply lower_char_s in Hs. apply lower_char_k in Hk.
    apply (proj1 (lower_char_space sp)) in Hsp. subst sp. by exists a, s, k, rest.
  - intros (a & s & k & rest & -> & Ha & Hs & Hk). cbn [JS.toLowerCase].
    apply lower_char_a in Ha. apply lower_char_s in Hs. apply lower_char_k in Hk.
    rewrite !prefix_cons, Ha, Hs, Hk. by rewrite prefix_empty.
Qed.

(** ** Runs of [main] *)
Ltac unfold_calls :=
  unfold callRevertLastChanges, callProcessFiles, callWriteFileSync, callCheckAPIKey,
    callGetAndSetAPIKey, callConfirm, callInput, streamAnswer, callGetAIEdits,
    callVerifyEditStream, callProcessEditStream, log, error, exit, emit, throw,
    getWorld, putWorld, liftResult, mbind, mret, M_mbind, M_mret, M_bind, M_ret.

Ltac case_step :=
  match goal with
  | |- context [match ?t with _ => _ end] =>
      lazymatch t with
      | context [match _ with _ => _ end] => fail
      | _ => destruct t eqn:?
      end
  end.

Section Runs.
#[local] Arguments JS.slice : simpl never.
Variable x : Externals.
Variable inv : Invocation.

(** A bind runs its first part, and its second when the first returns. *)
Lemma bind_run {A B : Type} (m : M A) (f : A → M B) (w : World) :
  (m ≫= f) w =
  match outcome (m w) with
  | Return a => prepend (trace (m w)) (f a (world (m w)))
  | Exit c => mkRun (trace (m w)) (world (m w)) (Exit c)
  | Throw e => mkRun (trace (m w)) (world (m w)) (Throw e)
  end.
Proof.
  unfold mbind, M_mbind, M_bind, prepend.
  destruct (m w) as [t w1 [a|c|e]]; simpl; [|done..].
  by destruct (f a w1).
Qed.

(** The [for await] loop writes the chunks in order. *)
Lemma forEach_stdout (chunks : list string) (w : World) :
  forEach (λ chunk, emit (EStdoutWrite chunk)) chunks w
  = mkRun (map EStdoutWrite chunks) w (Return tt).
Proof.
  induction chunks as [|c chunks IH]; [reflexivity|].
  simpl. rewrite bind_run. simpl. rewrite IH. reflexivity.
Qed.

(** Up to the prompt nothing touches files or the edit branch, and the
    task is the last event when the prompt returns one. *)
Lemma preamble_run (m : Model) (pf : ProcessedFiles) (w : World) :
  let r := preamble x inv m pf w in
  files (world r) = files w ∧ history (world r) = history w ∧
  ((Forall aside (trace r) ∧ ∀ task, outcome r ≠ Return task)
   ∨ ∃ pre task, trace r = pre ++ [EInput task] ∧ outcome r = Return task
                 ∧ Forall aside pre).
Proof.
  unfold preamble, checkAndSetAPIKey. unfold_calls. simpl.
  repeat (case_step; simpl); (split; [done | split; [done |]]).
  all: try (left; split; [repeat constructor | congruence]).
  all: right; match goal with
       | |- context [?l = _ ++ [EInput _]] => exists (removelast l)
       end; simpl; eexists; split; [reflexivity | split; [reflexivity |]];
       repeat constructor.
Qed.

(** The run of the question branch *)
Lemma answerQuestion_run (m : Model) (code task : string) (w : World) :
  answerQuestion x m code task w =
  let q := JS.trim (JS.slice 4 task) in
  let a := askAI x code q (name m) (provider m) in
  mkRun (EAskAI code q (name m) (provider m) :: map EStdoutWrite a.1
         ++ match a.2 with Some _ => [] | None => [ELog MsgNewline] end)
    w match a.2 with Some e => Throw e | None => Return tt end.
Proof.
  unfold answerQuestion, streamAnswer. simpl.
  destruct (askAI _ _ _ _ _) as [chunks failure]. simpl.
  rewrite !bind_run. simpl. rewrite ?bind_run, ?forEach_stdout. simpl.
  destruct failure; simpl; unfold prepend; simpl; by rewrite ?app_nil_r.
Qed.

(** The run of the edit branch, by the results of the calls it makes *)
Lemma editPipeline_run (m : Model) (code task : string) (w : World) :
  editPipeline x m code task w =
  match clientOf (provider m) with
  | None => mkRun [EError (MsgUnsupportedProvider (provider m)); EExit 1] w (Exit 1)
  | Some c =>
      let called := EGetAIEdits c code task (name m) (getAIEdits x c code task (name m)) in
      match getAIEdits x c code task (name m) with
      | Err e => mkRun [called] w (Throw e)
      | Ok raw =>
          let pp := provider (preferredVerifierModel x) in
          let p := verifierProvider x m (keys w) in
          let upto :=
            [called; ENewEditProcessor; ECheckAPIKey pp (checkAPIKey x pp (keys w));
             EVerifyEditStream raw p] in
          match verifyEditStream x raw p with
          | Err e => mkRun upto w (Throw e)
          | Ok s =>
              let r := processEditStream x s (files w, history w) in
              mkRun (upto ++ [EProcessEditStream s])
                {| files := r.1.1; history := r.1.2; keys := keys w |}
                match r.2 with Ok _ => Return tt | Err e => Throw e end
          end
      end
  end.
Proof.
  unfold editPipeline, clientOf, verifierProvider. unfold_calls. simpl.
  repeat (case_step; simpl in * ); try reflexivity; try congruence.
  all: by repeat match goal with u : unit |- _ => destruct u end.
Qed.


(** A session is the preamble, then one branch, then the closing line. *)
Lemma session_run (m : Model) (pf : ProcessedFiles) (w : World) :
  let r := session x inv m pf w in
  (Forall aside (trace r) ∧ files (world r) = files w ∧ history (world r) = history w)
  ∨ ∃ pre task w1,
      Forall aside pre ∧ files w1 = files w ∧ history w1 = history w
      ∧ trace r = pre ++ [EInput task] ++ trace (branch x m pf task w1)
                    ++ closing (outcome (branch x m pf task w1))
      ∧ world r = world (branch x m pf task w1)
      ∧ outcome r = outcome (branch x m pf task w1).
Proof.
  intros r. subst r. unfold session. rewrite bind_run.
  destruct (preamble_run m pf w) as (Hf & Hh & [[Hq Hno] | (pre & task & Ht & Ho & Hq)]).
  - left. destruct (outcome (preamble x inv m pf w)) as [task| |] eqn:Ho; simpl.
    + by destruct (Hno task).
    + done.
    + done.
  - right. rewrite Ho. exists pre, task, (world (preamble x inv m pf w)).
    split; [done|]. split; [done|]. split; [done|].
    unfold prepend. rewrite bind_run. fold (asksQuestion task). fold (branch x m pf task).
    rewrite Ht. simpl.
    destruct (outcome (branch x m pf task _)) as [[]| |]; simpl;
      rewrite <- ?app_assoc; simpl; rewrite ?app_nil_r; done.
Qed.

(** The run of [processFiles] *)
Lemma callProcessFiles_run (inputs : list string) (a : bool) (w : World) :
  callProcessFiles x inputs a w =
  mkRun [EProcessFiles inputs a] w
    match processFiles x inputs a (files w) with
    | Ok pf => Return pf
    | Err e => Throw e
    end.
Proof.
  unfold callProcessFiles. unfold_calls. simpl.
  by destruct (processFiles x inputs a (files w)).
Qed.

Lemma opening_aside (m : Model) : Forall aside (opening x inv m).
Proof. repeat constructor. Qed.

(** [main] either ends before a session or is the opening and a session. *)
Lemma main_run (w : World) :
  let r := main x inv w in
  Forall (λ e, inEditPipeline e = false ∧ isInput e = false) (trace r)
  ∨ ∃ m pf,
      head (argv inv) ≠ Some "revert"
      ∧ selectedModel (parseArgs x (argv inv)) = Some m
      ∧ r = prepend (opening x inv m) (session x inv m pf w).
Proof.
  intros r. subst r. unfold main.
  case_bool_decide as Hrevert.
  { left. unfold callRevertLastChanges. unfold_calls. simpl.
    repeat (case_step; simpl); repeat constructor. }
  case_bool_decide as Hfiles.
  { left. unfold_calls. simpl. repeat constructor. }
  rewrite bind_run, callProcessFiles_run. simpl.
  destruct (processFiles x _ _ (files w)) as [pf|e] eqn:Hpf; simpl;
    [| left; repeat constructor].
  destruct (printCodeAndExit _) eqn:Hp.
  { left. unfold callWriteFileSync, prepend. unfold_calls. simpl.
    repeat (case_step; simpl); repeat constructor. }
  unfold listAvailableModels. 
  destruct (selectedModel _) as [m|] eqn:Hm.
  - right. exists m, pf. split; [done|]. split; [done|].
    by repeat (rewrite bind_run; simpl).
  - left. repeat (rewrite bind_run; simpl). unfold prepend; simpl.
    repeat constructor.
Qed.


(** The shape of every run of [main]: without a task, or around the branch
    that the task selects. *)
Lemma main_shape (w : World) :
  let r := main x inv w in
  Forall (λ e, inEditPipeline e = false ∧ isInput e = false) (trace r)
  ∨ ∃ m pf pre task w1,
      selectedModel (parseArgs x (argv inv)) = Some m
      ∧ Forall aside pre ∧ files w1 = files w ∧ history w1 = history w
      ∧ trace r = pre ++ [EInput task] ++ trace (branch x m pf task w1)
                    ++ closing (outcome (branch x m pf task w1))
      ∧ world r = world (branch x m pf task w1)
      ∧ outcome r = outcome (branch x m pf task w1).
Proof.
  intros r. subst r.
  destruct (main_run w) as [Hq | (m & pf & Hrev & Hm & ->)]; [by left|].
  destruct (session_run m pf w)
    as [(Hq & _) | (pre & task & w1 & Hpre & Hf & Hh & Ht & Hw & Ho)].
  - left. unfold prepend. cbn [trace]. apply Forall_app. split.
    + eapply Forall_impl; [apply opening_aside|]. by intros e (? & ? & ?).
    + eapply Forall_impl; [exact Hq|]. by intros e (? & ? & ?).
  - right. exists m, pf, (opening x inv m ++ pre), task, w1.
    unfold prepend. cbn [trace world outcome].
    split; [done|]. split; [apply Forall_app; split; [apply opening_aside | done]|].
    split; [done|]. split; [done|]. split; [| done].
    rewrite Ht. by rewrite <- app_assoc.
Qed.

(** Neither branch asks for a task again; the question branch is [aside]
    and leaves the machine alone. *)
Lemma answerQuestion_aside (m : Model) (code task : string) (w : World) :
  Forall aside (trace (answerQuestion x m code task w))
  ∧ world (answerQuestion x m code task w) = w.
Proof.
  rewrite answerQuestion_run. simpl. split; [| done].
  constructor; [done|]. apply Forall_app. split.
  - apply Forall_forall. intros e He. apply list_elem_of_In in He.
    apply in_map_iff in He as (c & <- & _). done.
  - destruct (askAI _ _ _ _ _).2; repeat constructor.
Qed.

Lemma branch_no_input (m : Model) (pf : ProcessedFiles) (task : string) (w : World) :
  Forall (λ e, isInput e = false) (trace (branch x m pf task w)).
Proof.
  unfold branch. destruct (asksQuestion task).
  - eapply Forall_impl; [apply answerQuestion_aside|]. by intros e (? & ? & ?).
  - rewrite editPipeline_run.
    repeat (case_step; simpl); repeat constructor.
Qed.

Lemma closing_aside {A : Type} (o : Outcome A) : Forall aside (closing o).
Proof. destruct o; repeat constructor. Qed.


(** An event that is not [aside] cannot lie in a list of [aside] events. *)
Ltac not_aside :=
  match goal with
  | H : Forall aside ?l, Hin : ?e ∈ ?l |- _ =>
      let Ha := fresh in
      pose proof (proj1 (Forall_forall _ _) H e Hin) as Ha;
      destruct Ha as (? & ? & ?); discriminate
  end.

(** C2: whenever the applier is handed a stream, that stream is what
    [verifyEditStream] returned for the stream of the provider call, the
    verification is the event right before the application, and the run has
    no other event of the edit branch: nothing is applied that did not pass
    the verifier first. *)
Theorem applier_consumes_verifier_output (w : World) (s : list VerificationResult) :
  EProcessEditStream s ∈ trace (main x inv w) →
  ∃ pre post c code task nm raw b p,
    trace (main x inv w) =
      pre ++ [EGetAIEdits c code task nm (Ok raw); ENewEditProcessor;
              ECheckAPIKey (provider (preferredVerifierModel x)) b;
              EVerifyEditStream raw p; EProcessEditStream s] ++ post
    ∧ getAIEdits x c code task nm = Ok raw
    ∧ verifyEditStream x raw p = Ok s
    ∧ Forall (λ e, inEditPipeline e = false) pre
    ∧ Forall (λ e, inEditPipeline e = false) post.
Proof.
  intros He.
  destruct (main_shape w)
    as [Hq | (m & pf & pre & task & w1 & Hm & Hpre & _ & _ & Ht & _ & _)].
  { pose proof (proj1 (Forall_forall _ _) Hq _ He) as [? _]. discriminate. }
  rewrite Ht in He |- *.
  pose proof (closing_aside (outcome (branch x m pf task w1))) as Hclose.
  rewrite !elem_of_app, list_elem_of_singleton in He.
  destruct He as [He | [He | [He | He]]]; [not_aside | discriminate | | not_aside].
  revert He Hclose. unfold branch. destruct (asksQuestion task).
  { intros He _. pose proof (answerQuestion_aside m (code pf) task w1) as [Ha _].
    not_aside. }
  rewrite editPipeline_run.
  destruct (clientOf (provider m)) as [c|]; simpl.
  2:{ rewrite !elem_of_cons. intros [|[|He]]; [done.. | inversion He]. }
  destruct (getAIEdits x c (code pf) task (name m)) as [raw|e] eqn:Hraw; simpl.
  2:{ rewrite !elem_of_cons. intros [|He]; [done | inversion He]. }
  destruct (verifyEditStream x raw _) as [s'|e] eqn:Hver; simpl.
  2:{ rewrite !elem_of_cons. intros [|[|[|[|He]]]]; [done.. | inversion He]. }
  rewrite !elem_of_cons. intros [|[|[|[|[Hs|He]]]]] Hclose; [done.. | | inversion He].
  injection Hs as <-.
  exists (pre ++ [EInput task]), (closing
    match (processEditStream x s (files w1, history w1)).2 with
    | Ok _ => Return tt | Err e => Throw e end), c, (code pf), task, (name m), raw.
  eexists _, _. split; [by rewrite <- !app_assoc|].
  split; [done|]. split; [exact Hver|]. split.
  - apply Forall_app. split; [| by repeat constructor].
    eapply Forall_impl; [exact Hpre|]. by intros e (? & ? & ?).
  - eapply Forall_impl; [exact Hclose|]. by intros e (? & ? & ?).
Qed.


(** The provider handed to the verifier, by cases on the key *)
Lemma verifierProvider_spec (m : Model) (ks : gmap string string) :
  let present := checkAPIKey x (provider (preferredVerifierModel x)) ks in
  let p := verifierProvider x m ks in
  (present = true → p = provider (preferredVerifierModel x))
  ∧ (present = false → p = provider m)
  ∧ (provider m ≠ provider (preferredVerifierModel x) →
     (p = provider (preferredVerifierModel x) ↔ present = true)).
Proof.
  unfold verifierProvider. destruct (checkAPIKey x _ ks); simpl.
  - split; [done|]. split; [done|]. done.
  - split; [done|]. split; [done|]. intros Hne. split; [done | discriminate].
Qed.

(** C3: when the provider call has produced a stream, [verifyEditStream] is
    invoked on it, right after [checkAPIKey] was asked about the provider of
    the preferred verifier model; its provider argument is that provider
    when the key is present, and the provider of the selected model when it
    is not.  When the two providers differ, the argument is the preferred
    one exactly when the key is present. *)
Theorem verifier_provider_choice (w : World) (c : Client) (compiled task nm : string)
    (raw : list EditPacket) :
  EGetAIEdits c compiled task nm (Ok raw) ∈ trace (main x inv w) →
  ∃ m pre post present p,
    selectedModel (parseArgs x (argv inv)) = Some m
    ∧ trace (main x inv w) =
        pre ++ [EGetAIEdits c compiled task nm (Ok raw); ENewEditProcessor;
                ECheckAPIKey (provider (preferredVerifierModel x)) present;
                EVerifyEditStream raw p] ++ post
    ∧ present = checkAPIKey x (provider (preferredVerifierModel x))
                  (keys (world (main x inv w)))
    ∧ (present = true → p = provider (preferredVerifierModel x))
    ∧ (present = false → p = provider m)
    ∧ (provider m ≠ provider (preferredVerifierModel x) →
       (p = provider (preferredVerifierModel x) ↔ present = true))
    ∧ Forall (λ e, inEditPipeline e = false) pre.
Proof.
  intros He.
  destruct (main_shape w)
    as [Hq | (m & pf & pre & entered & w1 & Hm & Hpre & _ & _ & Ht & Hw & _)].
  { pose proof (proj1 (Forall_forall _ _) Hq _ He) as [? _]. discriminate. }
  rewrite Ht in He |- *. rewrite Hw.
  pose proof (closing_aside (outcome (branch x m pf entered w1))) as Hclose.
  rewrite !elem_of_app, list_elem_of_singleton in He.
  destruct He as [He | [He | [He | He]]]; [not_aside | discriminate | | not_aside].
  assert (Forall (λ e, inEditPipeline e = false) (pre ++ [EInput entered])) as Hpre'.
  { apply Forall_app. split; [| by repeat constructor].
    eapply Forall_impl; [exact Hpre|]. by intros e (? & ? & ?). }
  revert He. clear Hclose. unfold branch. destruct (asksQuestion entered).
  { intros He. pose proof (answerQuestion_aside m (code pf) entered w1) as [Ha _].
    not_aside. }
  rewrite editPipeline_run.
  destruct (clientOf (provider m)) as [c'|]; simpl.
  2:{ rewrite !elem_of_cons. intros [|[|He]]; [done.. | inversion He]. }
  destruct (getAIEdits x c' (code pf) entered (name m)) as [raw'|e] eqn:Hraw; simpl.
  2:{ rewrite !elem_of_cons. intros [|He]; [done | inversion He]. }
  destruct (verifierProvider_spec m (keys w1)) as (Hpresent & Habsent & Hiff).
  destruct (verifyEditStream x raw' _) as [s'|e] eqn:Hver; simpl.
  - rewrite !elem_of_cons. intros [Heq|[|[|[|[|He]]]]]; [| done.. | inversion He].
    injection Heq as -> -> -> -> ->.
    exists m, (pre ++ [EInput entered]), (EProcessEditStream s' :: closing
      match (processEditStream x s' (files w1, history w1)).2 with
      | Ok _ => Return tt | Err e => Throw e end).
    eexists _, _. split; [done|]. split; [by rewrite <- !app_assoc|]. done.
  - rewrite !elem_of_cons. intros [Heq|[|[|[|He]]]]; [| done.. | inversion He].
    injection Heq as -> -> -> -> ->.
    exists m, (pre ++ [EInput entered]), [].
    eexists _, _. split; [done|]. split; [by rewrite <- !app_assoc|]. done.
Qed.

(** C10: when the task that was entered begins with "ask " (in any case),
    the run has no event of the edit branch and no event that writes files;
    files and history slot are at the end what they were at the start; and
    from the prompt on the run is the call of [askAI], the answer chunks on
    standard output, and at most the two closing lines. *)
Theorem question_only_answers (w : World) (task : string) :
  EInput task ∈ trace (main x inv w) →
  JS.startsWith (JS.toLowerCase task) "ask " = true →
  (∀ e, e ∈ trace (main x inv w) → inEditPipeline e = false ∧ touchesFiles e = false)
  ∧ files (world (main x inv w)) = files w
  ∧ history (world (main x inv w)) = history w
  ∧ ∃ m pf pre post,
      selectedModel (parseArgs x (argv inv)) = Some m
      ∧ trace (main x inv w) =
          pre ++ [EInput task;
                  EAskAI (code pf) (JS.trim (JS.slice 4 task)) (name m) (provider m)]
            ++ map EStdoutWrite
                 (askAI x (code pf) (JS.trim (JS.slice 4 task)) (name m) (provider m)).1
            ++ post
      ∧ (post = [] ∨ post = [ELog MsgNewline; ELog MsgLeaveStar]).
Proof.
  intros He Hask.
  destruct (main_shape w)
    as [Hq | (m & pf & pre & entered & w1 & Hm & Hpre & Hf & Hh & Ht & Hw & _)].
  { pose proof (proj1 (Forall_forall _ _) Hq _ He) as [_ ?]. discriminate. }
  pose proof (closing_aside (outcome (branch x m pf entered w1))) as Hclose.
  assert (entered = task) as ->.
  { rewrite Ht, !elem_of_app, list_elem_of_singleton in He.
    destruct He as [He | [He | [He | He]]]; [not_aside | congruence | | not_aside].
    pose proof (proj1 (Forall_forall _ _) (branch_no_input m pf entered w1) _ He).
    discriminate. }
  revert Ht Hw Hclose. unfold branch, asksQuestion. rewrite Hask.
  destruct (answerQuestion_aside m (code pf) task w1) as [Ha Hwa].
  intros Ht Hw Hclose. rewrite Hw, Hwa. split; [| split; [done | split; [done |]]].
  - intros e. rewrite Ht, !elem_of_app, list_elem_of_singleton.
    intros [Hin | [-> | [Hin | Hin]]]; [| done | |].
    + by destruct (proj1 (Forall_forall _ _) Hpre e Hin) as (? & ? & ?).
    + by destruct (proj1 (Forall_forall _ _) Ha e Hin) as (? & ? & ?).
    + by destruct (proj1 (Forall_forall _ _) Hclose e Hin) as (? & ? & ?).
  - exists m, pf, pre. rewrite Ht, answerQuestion_run. cbn [trace outcome].
    destruct (askAI x _ _ _ _).2.
    + exists []. split; [done|]. split; [| by left].
      cbn [closing]. by rewrite !app_nil_r.
    + exists [ELog MsgNewline; ELog MsgLeaveStar]. split; [done|].
      split; [| by right]. cbn [closing]. simpl. by rewrite <- app_assoc.
Qed.

(** The run of [main] on "revert" *)
Lemma main_revert (w : World) :
  head (argv inv) = Some "revert" →
  main x inv w =
  mkRun [ERevertLastChanges (revertLastChanges x (files w, history w)).2]
    {| files := (revertLastChanges x (files w, history w)).1.1;
       history := (revertLastChanges x (files w, history w)).1.2;
       keys := keys w |}
    match (revertLastChanges x (files w, history w)).2 with
    | Ok _ => Return tt
    | Err e => Throw e
    end.
Proof.
  intros Hrevert. unfold main. rewrite bool_decide_eq_true_2 by done.
  unfold callRevertLastChanges. unfold_calls. simpl.
  by destruct (revertLastChanges x (files w, history w)) as [[fs' h'] [report|e]].
Qed.

Lemma main_revert_no_history (w : World) :
  head (argv inv) = Some "revert" →
  revertLastChanges x = History.revertLastChanges →
  history w = None →
  main x inv w = mkRun [ERevertLastChanges (Ok NothingToRevert)] w (Return tt).
Proof.
  intros Hrevert Hstore Hnone. rewrite main_revert by done. rewrite Hstore.
  unfold History.revertLastChanges. simpl. rewrite Hnone. simpl.
  destruct w as [fs h ks]. simpl in *. by subst h.
Qed.

(** The whole program then ends without an uncaught error. *)
Lemma program_revert_no_history (w : World) :
  head (argv inv) = Some "revert" →
  revertLastChanges x = History.revertLastChanges →
  history w = None →
  program x inv w = mkRun [ERevertLastChanges (Ok NothingToRevert)] w (Return tt).
Proof.
  intros Hrevert Hstore Hnone. unfold program.
  by rewrite main_revert_no_history.
Qed.

(** C4: with "revert" as the first argument the run is the call of
    [revertLastChanges] and nothing else, it ends as that call ends, and it
    leaves the stored keys alone; with the history store of section 4.5 and
    no run recorded, the call reports that there is nothing to revert, the
    machine stays as it is and [main] returns. *)
Theorem revert_only (w : World) :
  head (argv inv) = Some "revert" →
  (let r := revertLastChanges x (files w, history w) in
   main x inv w =
   mkRun [ERevertLastChanges r.2]
     {| files := r.1.1; history := r.1.2; keys := keys w |}
     match r.2 with Ok _ => Return tt | Err e => Throw e end)
  ∧ (revertLastChanges x = History.revertLastChanges →
     history w = None →
     main x inv w = mkRun [ERevertLastChanges (Ok NothingToRevert)] w (Return tt)).
Proof.
  intros Hrevert. split; [by apply main_revert|].
  intros Hstore Hnone. by apply main_revert_no_history.
Qed.

(** C5: when no file or folder is left once the flags and the nickname of
    the model are taken away, the run is the error message and the exit with
    code 1: no file is read, no model is called, the machine is untouched. *)
Theorem no_files_exit (w : World) :
  head (argv inv) ≠ Some "revert" →
  fileInputs (parseArgs x (argv inv)) = [] →
  main x inv w = mkRun [EError MsgNoFiles; EExit 1] w (Exit 1).
Proof.
  intros Hrevert Hnone. unfold main.
  rewrite bool_decide_eq_false_2 by done.
  rewrite Hnone. reflexivity.
Qed.

(** C6, as amended: with "-p" among the arguments, a first argument other
    than "revert", at least one file or folder left, [processFiles]
    succeeding and "compiled-code.txt" writable, the run reads the files,
    writes the compiled text as it is to "compiled-code.txt", prints one
    line and exits with code 0; there is no prompt and no model call, and no
    other file changes. *)
Theorem print_code_and_exit (w : World) (pf : ProcessedFiles) :
  head (argv inv) ≠ Some "revert" →
  "-p" ∈ argv inv →
  fileInputs (parseArgs x (argv inv)) ≠ [] →
  processFiles x (fileInputs (parseArgs x (argv inv)))
    (includeImports (parseArgs x (argv inv))) (files w) = Ok pf →
  "compiled-code.txt" ∉ readonly (files w) →
  main x inv w =
  mkRun
    [EProcessFiles (fileInputs (parseArgs x (argv inv)))
       (includeImports (parseArgs x (argv inv)));
     EWriteFileSync "compiled-code.txt" (code pf);
     ELog MsgSaved;
     EExit 0]
    {| files :=
         {| contents := <["compiled-code.txt" := code pf]> (contents (files w));
            readonly := readonly (files w) |};
       history := history w;
       keys := keys w |}
    (Exit 0).
Proof.
  intros Hrevert Hp Hfiles Hpf Hwritable. unfold main.
  rewrite bool_decide_eq_false_2 by done.
  rewrite bool_decide_eq_false_2 by (by destruct (fileInputs _)).
  rewrite bind_run, callProcessFiles_run, Hpf. cbn [outcome trace world].
  assert (printCodeAndExit (parseArgs x (argv inv)) = true) as ->.
  { unfold parseArgs. destruct (pop _) as [n l].
    destruct (findModel x n); simpl; by apply bool_decide_eq_true_2. }
  unfold callWriteFileSync, writeFile. unfold_calls. simpl.
  rewrite decide_False by done. reflexivity.
Qed.

End Runs.

(** ** The runs of the sample installation *)

Lemma applier_consumes_verifier_output_witness :
  EProcessEditStream Sample.verified
    ∈ trace (main Sample.externals (Sample.invoke ["a.txt"] "fix it") Sample.machine)
  ∧ ∃ pre post c code task nm raw b p,
      trace (main Sample.externals (Sample.invoke ["a.txt"] "fix it") Sample.machine) =
        pre ++ [EGetAIEdits c code task nm (Ok raw); ENewEditProcessor;
                ECheckAPIKey (provider (preferredVerifierModel Sample.externals)) b;
                EVerifyEditStream raw p; EProcessEditStream Sample.verified] ++ post
      ∧ getAIEdits Sample.externals c code task nm = Ok raw
      ∧ verifyEditStream Sample.externals raw p = Ok Sample.verified
      ∧ Forall (λ e, inEditPipeline e = false) pre
      ∧ Forall (λ e, inEditPipeline e = false) post.
Proof.
  assert (EProcessEditStream Sample.verified
            ∈ trace (main Sample.externals (Sample.invoke ["a.txt"] "fix it")
                       Sample.machine)) as Hin
    by (vm_compute; repeat constructor).
  split; [exact Hin|].
  exact (applier_consumes_verifier_output Sample.externals
           (Sample.invoke ["a.txt"] "fix it") Sample.machine Sample.verified Hin).
Defined.

Lemma verifier_provider_choice_witness :
  ∃ m pre post present p,
    selectedModel (parseArgs Sample.externals ["a.txt"]) = Some m
    ∧ trace (main Sample.externals (Sample.invoke ["a.txt"] "fix it") Sample.machine) =
        pre ++ [EGetAIEdits Claude "1: line1" "fix it" "claude-3-5-sonnet-20240620"
                  (Ok Sample.edits);
                ENewEditProcessor;
                ECheckAPIKey "anthropic" present;
                EVerifyEditStream Sample.edits p] ++ post
    ∧ present = checkAPIKey Sample.externals "anthropic"
                  (keys (world (main Sample.externals
                                  (Sample.invoke ["a.txt"] "fix it") Sample.machine)))
    ∧ (present = true → p = "anthropic")
    ∧ (present = false → p = provider m)
    ∧ (provider m ≠ "anthropic" → (p = "anthropic" ↔ present = true))
    ∧ Forall (λ e, inEditPipeline e = false) pre.
Proof.
  apply (verifier_provider_choice Sample.externals
           (Sample.invoke ["a.txt"] "fix it") Sample.machine
           Claude "1: line1" "fix it" "claude-3-5-sonnet-20240620" Sample.edits).
  vm_compute. repeat constructor.
Defined.

Lemma question_only_answers_witness :
  (∀ e, e ∈ trace (main Sample.externals (Sample.invoke ["a.txt"; "4o"] "Ask  what? ")
                     Sample.machine) →
        inEditPipeline e = false ∧ touchesFiles e = false)
  ∧ files (world (main Sample.externals (Sample.invoke ["a.txt"; "4o"] "Ask  what? ")
                    Sample.machine)) = Sample.disk.
Proof.
  destruct (question_only_answers Sample.externals
              (Sample.invoke ["a.txt"; "4o"] "Ask  what? ") Sample.machine
              "Ask  what? ") as (Hcalm & Hfiles & _).
  - vm_compute. repeat constructor.
  - reflexivity.
  - split; [exact Hcalm | exact Hfiles].
Defined.

Lemma revert_only_witness :
  main Sample.externals (Sample.invoke ["revert"] "") Sample.machine
  = mkRun [ERevertLastChanges (Ok NothingToRevert)] Sample.machine (Return tt).
Proof.
  exact (proj2 (revert_only Sample.externals (Sample.invoke ["revert"] "")
                  Sample.machine eq_refl) eq_refl eq_refl).
Defined.

Lemma no_files_exit_witness :
  main Sample.externals (Sample.invoke ["-a"; "4o"] "") Sample.machine
  = mkRun [EError MsgNoFiles; EExit 1] Sample.machine (Exit 1).
Proof.
  apply (no_files_exit Sample.externals (Sample.invoke ["-a"; "4o"] "") Sample.machine).
  - discriminate.
  - reflexivity.
Defined.

(** C6 as it was stated fails when "-p" is the only argument: nothing is
    compiled or written, and the exit code is 1. *)
Lemma print_flag_without_files :
  "-p" ∈ argv (Sample.invoke ["-p"] "")
  ∧ main Sample.externals (Sample.invoke ["-p"] "") Sample.machine
    = mkRun [EError MsgNoFiles; EExit 1] Sample.machine (Exit 1).
Proof. split; [repeat constructor | reflexivity]. Qed.

Lemma print_code_and_exit_witness :
  main Sample.externals (Sample.invoke ["a.txt"; "-p"] "") Sample.machine
  = mkRun
      [EProcessFiles ["a.txt"] false;
       EWriteFileSync "compiled-code.txt" "1: line1";
       ELog MsgSaved;
       EExit 0]
      {| files :=
           {| contents := <["compiled-code.txt" := "1: line1"]> (contents Sample.disk);
              readonly := ∅ |};
         history := None;
         keys := ∅ |}
      (Exit 0).
Proof.
  apply (print_code_and_exit Sample.externals (Sample.invoke ["a.txt"; "-p"] "")
           Sample.machine {| code := "1: line1"; count := 1 |}).
  - discriminate.
  - repeat constructor.
  - discriminate.
  - reflexivity.
  - apply not_elem_of_empty.
Defined.

(** ** The normalizer: fragments against the whole stream *)
Module NormalizerFacts.
Import Normalizer.

(** [String.append] does not simplify; these are its equations. *)
Lemma append_cons (c : ascii) (a b : string) :
  String c a +:+ b = String c (a +:+ b).
Proof. reflexivity. Qed.

Lemma append_nil_l (b : string) : "" +:+ b = b.
Proof. reflexivity. Qed.

Lemma append_assoc (a b c : string) : (a +:+ b) +:+ c = a +:+ (b +:+ c).
Proof.
  induction a as [|ch a IH]; [done|]. rewrite !append_cons. by f_equal.
Qed.

Lemma append_nil_r (a : string) : a +:+ "" = a.
Proof. induction a as [|ch a IH]; [done|]. rewrite append_cons. by f_equal. Qed.

Lemma append_length (a b : string) :
  String.length (a +:+ b) = (String.length a + String.length b)%nat.
Proof.
  induction a as [|ch a IH]; [done|]. rewrite append_cons. simpl. by f_equal.
Qed.

Lemma prefix_length (m s : string) :
  String.prefix m s = true → (String.length m ≤ String.length s)%nat.
Proof.
  revert s. induction m as [|c m IH]; intros [|d s]; simpl; try done; try lia.
  destruct (ascii_dec c d); [| done]. intros H. apply IH in H. lia.
Qed.

Lemma prefix_slice_length (m s : string) :
  String.prefix m s = true →
  String.length s = (String.length m + String.length (JS.slice (String.length m) s))%nat.
Proof.
  revert s. induction m as [|c m IH]; intros [|d s]; simpl; try done.
  destruct (ascii_dec c d); [| done]. intros H. by rewrite <- IH.
Qed.

Lemma prefix_append (m s t : string) :
  String.prefix m s = true →
  String.prefix m (s +:+ t) = true
  ∧ JS.slice (String.length m) (s +:+ t) = JS.slice (String.length m) s +:+ t.
Proof.
  revert s. induction m as [|c m IH]; intros s.
  - intros _. split; [by destruct (s +:+ t) | done].
  - destruct s as [|d s]; [done|]. rewrite append_cons. simpl.
    destruct (ascii_dec c d); [| done]. apply IH.
Qed.

Lemma prefix_append_long (m s t : string) :
  (String.length m ≤ String.length s)%nat →
  String.prefix m (s +:+ t) = String.prefix m s.
Proof.
  revert s. induction m as [|c m IH]; intros s.
  - intros _. by destruct (s +:+ t); destruct s.
  - destruct s as [|d s]; [simpl; lia|]. rewrite append_cons. simpl.
    intros H. destruct (ascii_dec c d); [| done]. apply IH. lia.
Qed.

Section Facts.
Variable marker : string.
Variable parseRecord : string → option EditPacket.
Hypothesis marker_nonempty : marker ≠ "".

Lemma marker_length : (0 < String.length marker)%nat.
Proof. destruct marker; [done | simpl; lia]. Qed.

Lemma findMarker_unfold (s : string) :
  findMarker marker s =
  if String.prefix marker s then Some ("", JS.slice (String.length marker) s)
  else
    match s with
    | "" => None
    | String c s' =>
        match findMarker marker s' with
        | Some (before, after) => Some (String c before, after)
        | None => None
        end
    end.
Proof. by destruct s. Qed.

Lemma findMarker_nil : findMarker marker "" = None.
Proof.
  rewrite findMarker_unfold.
  destruct (String.prefix marker "") eqn:Hp; [| done].
  apply prefix_length in Hp. pose proof marker_length. simpl in Hp. lia.
Qed.

Lemma findMarker_length (s before after : string) :
  findMarker marker s = Some (before, after) →
  String.length s
  = (String.length before + String.length marker + String.length after)%nat.
Proof.
  revert before after. induction s as [|c s IH]; intros before after.
  - by rewrite findMarker_nil.
  - rewrite findMarker_unfold.
    destruct (String.prefix marker (String c s)) eqn:Hp.
    + intros [= <- <-]. by apply prefix_slice_length in Hp.
    + destruct (findMarker marker s) as [[b a]|] eqn:Hf; [| done].
      intros [= <- <-]. simpl. rewrite (IH b a eq_refl). lia.
Qed.

Lemma findMarker_append (s t before after : string) :
  findMarker marker s = Some (before, after) →
  findMarker marker (s +:+ t) = Some (before, after +:+ t).
Proof.
  revert before after. induction s as [|c s IH]; intros before after.
  - by rewrite findMarker_nil.
  - rewrite (findMarker_unfold (String c s)), append_cons,
      (findMarker_unfold (String c (s +:+ t))), <- append_cons.
    destruct (String.prefix marker (String c s)) eqn:Hp.
    + intros [= <- <-]. destruct (prefix_append _ _ t Hp) as [-> ->]. done.
    + destruct (findMarker marker s) as [[b a]|] eqn:Hf; [| done].
      intros [= <- <-].
      rewrite prefix_append_long, Hp.
      * by rewrite (IH b a eq_refl).
      * apply findMarker_length in Hf. simpl. lia.
Qed.

Lemma drain_S (f : nat) (buf : string) :
  drain marker (S f) buf =
  match findMarker marker buf with
  | Some (record, rest) =>
      (record :: (drain marker f rest).1, (drain marker f rest).2)
  | None => ([], buf)
  end.
Proof. reflexivity. Qed.

Lemma drain_nil (f : nat) : drain marker f "" = ([], "").
Proof. destruct f; [done|]. by rewrite drain_S, findMarker_nil. Qed.

Lemma drain_fuel (f1 f2 : nat) (buf : string) :
  (String.length buf ≤ f1)%nat → (String.length buf ≤ f2)%nat →
  drain marker f1 buf = drain marker f2 buf.
Proof.
  revert f2 buf. induction f1 as [|f1 IH]; intros f2 buf H1 H2.
  - destruct buf; [| simpl in H1; lia]. by rewrite !drain_nil.
  - destruct f2 as [|f2].
    + destruct buf; [| simpl in H2; lia]. by rewrite !drain_nil.
    + rewrite !drain_S.
      destruct (findMarker marker buf) as [[record rest]|] eqn:Hf; [| done].
      apply findMarker_length in Hf. pose proof marker_length.
      rewrite (IH f2 rest); [done | lia | lia].
Qed.

Lemma drain_append (f : nat) (a b : string) :
  (String.length a ≤ f)%nat →
  drain marker (f + String.length b) (a +:+ b) =
  ((drain marker f a).1 ++ (scan marker ((drain marker f a).2 +:+ b)).1,
   (scan marker ((drain marker f a).2 +:+ b)).2).
Proof.
  revert a. induction f as [|f IH]; intros a Ha.
  - destruct a; [| simpl in Ha; lia]. rewrite drain_nil. cbn [fst snd app].
    rewrite !append_nil_l. unfold scan. simpl.
    by destruct (drain marker (String.length b) b).
  - destruct (findMarker marker a) as [[record rest]|] eqn:Hf.
    + change (S f + String.length b)%nat with (S (f + String.length b)).
      rewrite !drain_S, Hf, (findMarker_append _ b _ _ Hf).
      apply findMarker_length in Hf. pose proof marker_length.
      rewrite IH by lia. done.
    + rewrite (drain_S f a), Hf. cbn [fst snd]. unfold scan.
      rewrite (drain_fuel (S f + String.length b) (String.length (a +:+ b)));
        [by destruct (drain marker _ _) | rewrite append_length; lia | lia].
Qed.

Lemma scan_append (a b : string) :
  scan marker (a +:+ b) =
  ((scan marker a).1 ++ (scan marker ((scan marker a).2 +:+ b)).1,
   (scan marker ((scan marker a).2 +:+ b)).2).
Proof.
  unfold scan at 1. rewrite append_length. by apply drain_append.
Qed.

Lemma drain_rest (f : nat) (s : string) :
  (String.length s ≤ f)%nat → findMarker marker (drain marker f s).2 = None.
Proof.
  revert s. induction f as [|f IH]; intros s Hs.
  - destruct s; [| simpl in Hs; lia]. apply findMarker_nil.
  - rewrite drain_S.
    destruct (findMarker marker s) as [[record rest]|] eqn:Hf; [| done].
    apply findMarker_length in Hf. pose proof marker_length. apply IH. lia.
Qed.

Lemma scan_drained (s : string) :
  findMarker marker s = None → scan marker s = ([], s).
Proof.
  intros Hs. unfold scan. destruct (String.length s); [done|].
  by rewrite drain_S, Hs.
Qed.

Lemma parseAll_app (l1 l2 : list string) :
  parseAll parseRecord (l1 ++ l2) = parseAll parseRecord l1 ++ parseAll parseRecord l2.
Proof. apply omap_app. Qed.

Lemma feedAll_scan (st : State) (fragments : list string) :
  findMarker marker (buffer st) = None →
  (feedAll marker parseRecord st fragments).2
  = parseAll parseRecord (scan marker (buffer st +:+ wholeStream fragments)).1.
Proof.
  revert st. induction fragments as [|fragment rest IH]; intros st Hst.
  - cbn [feedAll wholeStream foldr snd]. by rewrite append_nil_r, scan_drained.
  - cbn [feedAll wholeStream foldr snd]. fold (wholeStream rest).
    rewrite IH.
    + unfold feed. cbn [fst snd buffer].
      rewrite <- parseAll_app, <- append_assoc.
      by rewrite (scan_append (buffer st +:+ fragment)).
    + unfold feed. cbn [fst snd buffer]. apply drain_rest. lia.
Qed.

(** The packets that leave the normalizer are the parsed records that a
    scan of the whole stream cuts off, however the stream is cut into
    fragments. *)
Lemma normalize_whole (fragments : list string) :
  normalize marker parseRecord fragments
  = parseAll parseRecord (scan marker (wholeStream fragments)).1.
Proof.
  unfold normalize.
  rewrite feedAll_scan by apply findMarker_nil. by rewrite append_nil_l.
Qed.

Lemma parseAll_wellFormed (records : list string) :
  wellFormed parseRecord records →
  length (parseAll parseRecord records) = length records.
Proof.
  induction 1 as [|r records [p Hp] _ IH]; [done|].
  unfold parseAll in *. cbn [omap list_omap]. rewrite Hp. simpl. by f_equal.
Qed.

(** *** The scan finds the complete records of the stream *)
Lemma prefix_self (m t : string) : String.prefix m (m +:+ t) = true.
Proof.
  induction m as [|c m IH]; [by destruct t|].
  rewrite append_cons. simpl. by destruct (ascii_dec c c).
Qed.

Lemma slice_self (m t : string) : JS.slice (String.length m) (m +:+ t) = t.
Proof. induction m as [|c m IH]; [done|]. by rewrite append_cons. Qed.

Lemma prefix_split (m s : string) :
  String.prefix m s = true → s = m +:+ JS.slice (String.length m) s.
Proof.
  revert s. induction m as [|c m IH]; intros [|d s]; simpl; try done.
  destruct (ascii_dec c d) as [-> |]; [| done].
  intros H. rewrite append_cons. f_equal. by apply IH.
Qed.

Lemma occursIn_cons (c : ascii) (s : string) :
  occursIn marker s → occursIn marker (String c s).
Proof. intros (a & b & ->). by exists (String c a), b. Qed.

Lemma terminated_tail (c : ascii) (r : string) :
  terminated marker (String c r) → terminated marker r.
Proof.
  intros Hr a b Hab. specialize (Hr (String c a) b).
  rewrite !append_cons, Hab in Hr. by injection (Hr eq_refl).
Qed.

Lemma findMarker_terminated (record tail : string) :
  terminated marker record →
  findMarker marker (record +:+ marker +:+ tail) = Some (record, tail).
Proof.
  induction record as [|c r IH]; intros Hr; rewrite findMarker_unfold.
  - by rewrite append_nil_l, prefix_self, slice_self.
  - destruct (String.prefix marker (String c r +:+ marker +:+ tail)) eqn:Hp.
    + exfalso. rewrite <- append_assoc, prefix_append_long in Hp
        by (rewrite append_length; lia).
      apply prefix_split in Hp. by specialize (Hr "" _ Hp).
    + rewrite append_cons, (IH (terminated_tail _ _ Hr)). done.
Qed.

Lemma findMarker_absent (text : string) :
  ¬ occursIn marker text → findMarker marker text = None.
Proof.
  induction text as [|c s IH]; intros Hno; [apply findMarker_nil|].
  rewrite findMarker_unfold.
  destruct (String.prefix marker (String c s)) eqn:Hp.
  - exfalso. apply Hno. apply prefix_split in Hp. eexists "", _. exact Hp.
  - rewrite IH; [done|]. intros Hs. by apply Hno, occursIn_cons.
Qed.

Lemma drain_joinRecords (f : nat) (records : list string) (partial : string) :
  (length records ≤ f)%nat →
  Forall (terminated marker) records → ¬ occursIn marker partial →
  drain marker f (joinRecords marker records partial) = (records, partial).
Proof.
  intros Hf Hrecords Hpartial. revert f Hf.
  induction Hrecords as [|r records Hr _ IH]; intros f Hf.
  - destruct f; [done|]. cbn [joinRecords]. by rewrite drain_S, findMarker_absent.
  - destruct f as [|f]; [simpl in Hf; lia|]. cbn [joinRecords].
    rewrite drain_S, findMarker_terminated by done.
    rewrite IH by (simpl in Hf; lia). done.
Qed.

Lemma joinRecords_length (records : list string) (partial : string) :
  (length records ≤ String.length (joinRecords marker records partial))%nat.
Proof.
  induction records as [|r records IH]; cbn [joinRecords length]; [lia|].
  rewrite !append_length. pose proof marker_length. lia.
Qed.

Lemma scan_consistsOf (stream : string) (records : list string) (partial : string) :
  consistsOf marker stream records partial → scan marker stream = (records, partial).
Proof.
  intros [-> Hrecords Hpartial]. unfold scan.
  apply drain_joinRecords; [apply joinRecords_length | done | done].
Qed.

(** *** Every stream has complete records and a partial rest, and only one
    such division *)
Lemma findMarker_Some (s before after : string) :
  findMarker marker s = Some (before, after) →
  s = before +:+ marker +:+ after ∧ terminated marker before.
Proof.
  revert before after. induction s as [|c s IH]; intros before after.
  - by rewrite findMarker_nil.
  - rewrite findMarker_unfold.
    destruct (String.prefix marker (String c s)) eqn:Hp.
    + intros [= <- <-]. split; [by apply prefix_split in Hp|].
      intros a b Hab. apply (f_equal String.length) in Hab.
      rewrite append_nil_l, !append_length in Hab.
      destruct a; [done | simpl in Hab; lia].
    + destruct (findMarker marker s) as [[b0 a0]|] eqn:Hf; [| done].
      intros [= <- <-]. destruct (IH b0 a0 eq_refl) as [-> Hb0].
      split; [by rewrite append_cons|].
      intros a b Hab. destruct a as [|d a].
      * exfalso. rewrite append_nil_l in Hab.
        rewrite <- append_cons, <- append_assoc, prefix_append_long, Hab, prefix_self
          in Hp; [done|].
        rewrite Hab, append_length. lia.
      * rewrite !append_cons in Hab. injection Hab as <- Hab.
        f_equal. by apply Hb0 in Hab.
Qed.

Lemma findMarker_None (s : string) :
  findMarker marker s = None → ¬ occursIn marker s.
Proof.
  induction s as [|c s IH]; intros Hf (a & b & Hab).
  - apply (f_equal String.length) in Hab. rewrite !append_length in Hab.
    pose proof marker_length. simpl in Hab. lia.
  - rewrite findMarker_unfold in Hf.
    destruct (String.prefix marker (String c s)) eqn:Hp; [done|].
    destruct (findMarker marker s) as [[b0 a0]|] eqn:Hs; [done|].
    destruct a as [|d a].
    + rewrite append_nil_l in Hab. by rewrite Hab, prefix_self in Hp.
    + rewrite append_cons in Hab. injection Hab as _ Hab.
      apply (IH eq_refl). by exists a, b.
Qed.

Lemma drain_divides (f : nat) (s : string) :
  (String.length s ≤ f)%nat →
  consistsOf marker s (drain marker f s).1 (drain marker f s).2.
Proof.
  revert s. induction f as [|f IH]; intros s Hs.
  - destruct s; [| simpl in Hs; lia]. split; [done | done |].
    apply findMarker_None, findMarker_nil.
  - rewrite drain_S. destruct (findMarker marker s) as [[record rest]|] eqn:Hf.
    + destruct (findMarker_Some _ _ _ Hf) as [Heq Hrecord].
      apply findMarker_length in Hf. pose proof marker_length.
      destruct (IH rest) as [Hrest Hrecords Hpartial]; [lia|].
      split; cbn [fst snd joinRecords]; [by rewrite <- Hrest | | done].
      by apply Forall_cons_2.
    + split; [done | done | by apply findMarker_None].
Qed.

Lemma stream_divides (stream : string) :
  ∃ records partial, consistsOf marker stream records partial.
Proof. eexists _, _. by apply (drain_divides (String.length stream)). Qed.

Lemma consistsOf_unique (stream : string) (records1 records2 : list string)
    (partial1 partial2 : string) :
  consistsOf marker stream records1 partial1 →
  consistsOf marker stream records2 partial2 →
  records1 = records2 ∧ partial1 = partial2.
Proof.
  intros H1 H2. apply scan_consistsOf in H1, H2. rewrite H1 in H2.
  by injection H2.
Qed.

(** The normalizer emits the parsed complete records, in their order, and
    keeps the partial text. *)
Lemma normalize_records (fragments records : list string) (partial : string) :
  consistsOf marker (wholeStream fragments) records partial →
  normalize marker parseRecord fragments = parseAll parseRecord records.
Proof. intros H. by rewrite normalize_whole, (scan_consistsOf _ _ _ H). Qed.

(** C7: for a well-formed stream, one whose complete records all parse, the
    normalizer emits as many packets as the stream has complete records,
    whatever the fragments are in which the stream arrives: the complete
    records are those of the whole text, and the fragments are any list of
    texts that make up that text. *)
Theorem normalizer_counts_complete_records (fragments records : list string)
    (partial : string) :
  consistsOf marker (wholeStream fragments) records partial →
  wellFormed parseRecord records →
  length (normalize marker parseRecord fragments) = length records.
Proof.
  intros Hstream Hwf. rewrite (normalize_records _ _ _ Hstream).
  by apply parseAll_wellFormed.
Qed.

(** Two ways of cutting the same stream give the same packets. *)
Corollary chunking_invariance (fragments1 fragments2 : list string) :
  wholeStream fragments1 = wholeStream fragments2 →
  normalize marker parseRecord fragments1 = normalize marker parseRecord fragments2.
Proof. intros H. by rewrite !normalize_whole, H. Qed.

End Facts.

(** For a text and a marker that are given: the marker occurs in the text at
    its end only, or not at all *)
Ltac first_marker :=
  let a := fresh "a" in
  let b := fresh "b" in
  let H := fresh "H" in
  intros a b H;
  repeat
    (destruct a as [|? a];
     [ rewrite ?append_nil_l, ?append_cons in H; first [discriminate H | reflexivity]
     | rewrite append_cons in H; first [discriminate H | injection H as <- H] ]).

End NormalizerFacts.

Lemma normalizer_counts_complete_records_witness :
  length (Normalizer.normalize ";" Sample.parseOp ["del"; "ete;ins"; "ert"; ";de"])
  = length ["delete"; "insert"].
Proof.
  apply (NormalizerFacts.normalizer_counts_complete_records ";" Sample.parseOp
           ltac:(discriminate) ["del"; "ete;ins"; "ert"; ";de"] ["delete"; "insert"] "de").
  - split.
    + reflexivity.
    + repeat apply Forall_cons_2; [| | apply Forall_nil_2];
        unfold Normalizer.terminated; NormalizerFacts.first_marker.
    + intros (a & b & H). revert a b H. NormalizerFacts.first_marker.
  - repeat apply Forall_cons_2; [| | apply Forall_nil_2]; by eexists.
Defined.

Example normalize_fragments :
  map operation
    (Normalizer.normalize ";" Sample.parseOp ["del"; "ete;ins"; "ert"; ";de"])
  = [deleteLines; insertAfterLine].
Proof. reflexivity. Qed.

(** ** Apply, then revert *)
Module RevertFacts.
Import Applier.

(** The invariant holds at the start and every packet keeps it. *)
Lemma Captured_start (fs0 : FS) (c : Counts) :
  Captured fs0 {| disk := fs0; snapshots := ∅; counts := c |}.
Proof. by split. Qed.

Lemma Captured_applyPacket (doc : list Doc.FileEntry) (fs0 : FS) (st : RunState)
    (p : EditPacket) :
  Captured fs0 st → Captured fs0 (applyPacket doc st p).
Proof.
  intros [Hro Hun Hor Hpr]. unfold applyPacket.
  destruct (resolve doc p) as [range|]; [| by split].
  unfold readFile.
  destruct (contents (disk st) !! filePath p) as [text|] eqn:Hread; [| by split].
  assert (∀ q t,
    match snapshots st !! filePath p with
    | Some _ => snapshots st
    | None => <[filePath p := text]> (snapshots st)
    end !! q = Some t →
    contents fs0 !! q = Some t ∧ (q = filePath p ∨ snapshots st !! q = Some t))
    as Hsnap.
  { intros q t. destruct (snapshots st !! filePath p) as [t0|] eqn:Hs.
    - intros Hq. split; [by apply (Hor q t) | by right].
    - destruct (decide (q = filePath p)) as [-> | Hne].
      + rewrite lookup_insert_eq. intros [= <-]. split; [| by left].
        by rewrite <- (Hun _ Hs).
      + rewrite lookup_insert_ne by done. intros Hq.
        split; [by apply (Hor q t) | by right]. }
  assert (∀ q,
    match snapshots st !! filePath p with
    | Some _ => snapshots st
    | None => <[filePath p := text]> (snapshots st)
    end !! q = None → q ≠ filePath p ∧ snapshots st !! q = None) as Hnone.
  { intros q. destruct (snapshots st !! filePath p) as [t0|] eqn:Hs.
    - intros Hq. split; [congruence | done].
    - destruct (decide (q = filePath p)) as [-> | Hne].
      + by rewrite lookup_insert_eq.
      + by rewrite lookup_insert_ne. }
  unfold writeFile. destruct (decide (filePath p ∈ readonly (disk st))) as [Hin|Hout].
  - split; simpl; [done | | | done].
    + intros q Hq. apply Hun. by apply Hnone.
    + intros q t Hq. destruct (Hsnap q t Hq) as [H0 [-> | Hs]].
      * split; [done | by rewrite Hread].
      * split; [done | by apply (Hor q t)].
  - split; simpl; [done | | |].
    + intros q Hq. destruct (Hnone q Hq) as [Hne Hs].
      rewrite lookup_insert_ne by done. by apply Hun.
    + intros q t Hq. destruct (Hsnap q t Hq) as [H0 Hcase]. split; [done|].
      destruct (decide (q = filePath p)) as [-> | Hne].
      * by rewrite lookup_insert_eq.
      * rewrite lookup_insert_ne by done. destruct Hcase as [? | Hs]; [done|].
        by apply (Hor q t).
    + intros q Hq. rewrite lookup_insert_ne; [by apply Hpr|].
      intros <-. by rewrite Hro in Hout.
Qed.

Lemma Captured_foldl (doc : list Doc.FileEntry) (fs0 : FS) (packets : list EditPacket)
    (st : RunState) :
  Captured fs0 st → Captured fs0 (foldl (applyPacket doc) st packets).
Proof.
  revert st. induction packets as [|p packets IH]; intros st Hst; [done|].
  simpl. apply IH. by apply Captured_applyPacket.
Qed.

Lemma Captured_applyRun (doc : list Doc.FileEntry) (stream : list VerificationResult)
    (fs0 : FS) :
  Captured fs0 (applyRun doc stream fs0).
Proof.
  unfold applyRun.
  generalize (remove_dups (map filePath (omap approved stream))).
  intros paths.
  assert (∀ st, Captured fs0 st →
            Captured fs0 (foldl (applyFile doc (omap approved stream)) st paths)) as H.
  { induction paths as [|path paths IH]; intros st Hst; [done|].
    simpl. apply IH. unfold applyFile. by apply Captured_foldl. }
  apply H, Captured_start.
Qed.

(** What [restoreAll] leaves on the disk *)
Lemma restoreAll_contents (snaps : gmap string string) (fs : FS) :
  readonly (History.restoreAll snaps fs).1 = readonly fs
  ∧ ∀ p, contents (History.restoreAll snaps fs).1 !! p =
         match snaps !! p, contents fs !! p with
         | Some t, Some old => if decide (p ∈ readonly fs) then Some old else Some t
         | _, o => o
         end.
Proof.
  unfold History.restoreAll.
  apply (map_fold_weak_ind (λ r m,
    readonly r.1 = readonly fs
    ∧ ∀ p, contents r.1 !! p =
           match m !! p, contents fs !! p with
           | Some t, Some old => if decide (p ∈ readonly fs) then Some old else Some t
           | _, o => o
           end)).
  - split; [done|]. intros p. by rewrite lookup_empty.
  - intros path snap m [fs' report] Hfresh [Hro Hc]. simpl in Hro, Hc.
    assert (contents fs' !! path = contents fs !! path) as Hpath.
    { rewrite Hc, Hfresh. by destruct (contents fs !! path). }
    unfold History.restoreFile, readFile, writeFile. simpl. rewrite Hpath.
    destruct (contents fs !! path) as [old|] eqn:Hold; simpl.
    + rewrite Hro. destruct (decide (path ∈ readonly fs)) as [Hin|Hout]; simpl.
      * split; [done|]. intros p. rewrite Hc.
        destruct (decide (p = path)) as [-> | Hne].
        -- rewrite lookup_insert_eq, Hfresh, Hold. by rewrite decide_True.
        -- by rewrite lookup_insert_ne.
      * split; [done|]. intros p.
        destruct (decide (p = path)) as [-> | Hne].
        -- rewrite !lookup_insert_eq, Hold. by rewrite decide_False.
        -- rewrite !lookup_insert_ne by done. apply Hc.
    + split; [done|]. intros p. rewrite Hc.
      destruct (decide (p = path)) as [-> | Hne].
      * by rewrite lookup_insert_eq, Hfresh, Hold.
      * by rewrite lookup_insert_ne.
Qed.

(** Two file systems with the same contents and protection are equal. *)
Lemma FS_eq (a b : FS) : contents a = contents b → readonly a = readonly b → a = b.
Proof. destruct a, b. simpl. by intros -> ->. Qed.

(** Restoring the snapshots of a run gives back the files the run started
    from. *)
Lemma restoreAll_Captured (fs0 : FS) (st : RunState) :
  Captured fs0 st → (History.restoreAll (snapshots st) (disk st)).1 = fs0.
Proof.
  intros [Hro Hun Hor Hpr].
  destruct (restoreAll_contents (snapshots st) (disk st)) as [Hro' Hc].
  apply FS_eq; [| by rewrite Hro'].
  apply map_eq. intros p. rewrite Hc.
  destruct (snapshots st !! p) as [t|] eqn:Hs.
  - destruct (Hor p t Hs) as [H0 [old Hold]]. rewrite Hold.
    destruct (decide (p ∈ readonly (disk st))) as [Hin|Hout].
    + rewrite <- Hold. apply Hpr. by rewrite <- Hro.
    + done.
  - rewrite (Hun p Hs). by destruct (contents fs0 !! p).
Qed.

(** After a run, a revert gives back the very files the run started from,
    whether or not a write of the run failed: a write that fails leaves its
    file as it was. *)
Lemma revert_restores_disk (doc : list Doc.FileEntry) (stream : list VerificationResult)
    (fs : FS) :
  (History.restoreAll (snapshots (applyRun doc stream fs))
     (disk (applyRun doc stream fs))).1 = fs.
Proof. apply restoreAll_Captured, Captured_applyRun. Qed.

(** C1: for a run without a failed write, every file that the run captured
    has, after the run and a revert, the content it had before the run; the
    history entry of the run maps the affected paths to their full original
    text, and the revert clears the slot. *)
Theorem apply_then_revert (doc : list Doc.FileEntry) (now : Z)
    (stream : list VerificationResult) (fs : FS) (former : option HistoryEntry) :
  let st := applyRun doc stream fs in
  let afterRun := (processEditStream doc now stream (fs, former)).1 in
  let afterRevert := (History.revertLastChanges afterRun).1 in
  failed (counts st) = 0%nat →
  ∀ path, path ∈ dom (snapshots st) →
    readFile afterRevert.1 path = readFile fs path
    ∧ afterRun.2 = Some {| timestamp := now; affectedFiles := snapshots st |}
    ∧ afterRevert.2 = None.
Proof.
  intros st afterRun afterRevert _ path Hpath.
  assert (snapshots st ≠ ∅) as Hne.
  { intros Hempty. rewrite Hempty in Hpath. set_solver. }
  subst afterRevert afterRun st. unfold processEditStream, slotAfter.
  cbn [fst snd]. rewrite decide_False by done.
  unfold History.revertLastChanges. cbn [fst snd affectedFiles].
  by rewrite revert_restores_disk.
Qed.

End RevertFacts.

Lemma apply_then_revert_witness :
  readFile
    (History.revertLastChanges
       (Applier.processEditStream Sample.doc 0 Sample.verified (Sample.disk, None)).1).1.1
    "a.txt"
  = Some Sample.aText.
Proof.
  refine (proj1 (RevertFacts.apply_then_revert Sample.doc 0 Sample.verified
                   Sample.disk None _ "a.txt" _)).
  - reflexivity.
  - apply elem_of_dom. vm_compute. by eexists.
Defined.

(** The example of section 8 of the specification: the replacement of lines 2
    and 3 is written before the insertion after line 1. *)
Example apply_sample :
  readFile (Applier.disk (Applier.applyRun Sample.doc Sample.verified Sample.disk))
    "a.txt"
  = Some (Applier.joinLines ["line1"; "H"; "X"; "Y"; "Z"; "line4"; "line5"]).
Proof. reflexivity. Qed.

(** An edit run of the program followed by a revert run gives back the
    files. *)
Example edit_then_revert_runs :
  files (world (main Sample.externals (Sample.invoke ["revert"] "")
                  (world (main Sample.externals (Sample.invoke ["a.txt"] "fix it")
                            Sample.machine))))
  = Sample.disk.
Proof. vm_compute. reflexivity. Qed.

(** * Further properties of [app.ts] *)

(** ** Rules for the laws of a run *)
Ltac law_split := split; unfold tidy, sameDisk; simpl.

Section Rules.
Context {A : Type} (P : Event → Prop).

Lemma lawful_ret (Q : A → Prop) (a : A) : Q a → lawful P Q (mret a).
Proof. intros Ha w. law_split; try done. by intros a' [= <-]. Qed.

Lemma lawful_throw (Q : A → Prop) (e : string) : lawful P Q (throw e).
Proof. intros w. by law_split. Qed.

Lemma lawful_exit (Q : A → Prop) (c : Z) : P (EExit c) → lawful P Q (exit c).
Proof.
  intros Hc w. law_split; try done.
  - by repeat constructor.
  - by exists [].
Qed.

Lemma lawful_liftResult (r : Result A) : lawful P (λ a, r = Ok a) (liftResult r).
Proof.
  intros w. destruct r as [a|e]; law_split; try done.
  by intros a' [= <-].
Qed.

Lemma lawful_post (Q Q' : A → Prop) (m : M A) :
  lawful P Q m → (∀ a, Q a → Q' a) → lawful P Q' m.
Proof.
  intros Hm HQ w. destruct (Hm w) as [? ? ? ? Hr]. split; try done.
  intros a Ha. by apply HQ, Hr.
Qed.

End Rules.

Lemma lawful_emit (P : Event → Prop) (e : Event) :
  P e → isExit e = false → lawful P (λ _, True) (emit e).
Proof. intros He Hx w. law_split; try done; by repeat constructor. Qed.

(** Events without an exit in front of a tidy run *)
Lemma tidy_prepend {A : Type} (t : list Event) (r : Run A) :
  Forall (λ e, isExit e = false) t → tidy r → tidy (prepend t r).
Proof.
  intros Ht. unfold tidy, prepend. simpl. destruct (outcome r).
  - intros Hr. by apply Forall_app.
  - intros (pre & -> & Hpre). exists (t ++ pre). split; [by rewrite app_assoc|].
    by apply Forall_app.
  - intros Hr. by apply Forall_app.
Qed.

(** The law of a computation in two parts *)
Lemma lawful_bind {A B : Type} (P : Event → Prop) (Q : A → Prop) (Q' : B → Prop)
    (m : M A) (f : A → M B) :
  lawful P Q m → (∀ a, Q a → lawful P Q' (f a)) → lawful P Q' (m ≫= f).
Proof.
  intros Hm Hf w. rewrite bind_run.
  destruct (Hm w) as [He Ht Hd Hk Hr].
  destruct (outcome (m w)) as [a|c|e] eqn:Ho.
  - destruct (Hf a (Hr a eq_refl) (world (m w))) as [He' Ht' Hd' Hk' Hr'].
    unfold tidy in Ht. rewrite Ho in Ht.
    split; unfold prepend; cbn [trace world outcome].
    + by apply Forall_app.
    + by apply (tidy_prepend _ (f a (world (m w)))).
    + intros [H1 H2]%Forall_app. destruct (Hd H1) as [? ?], (Hd' H2) as [? ?].
      split; congruence.
    + intros [H1 H2]%Forall_app. rewrite (Hk' H2). by apply Hk.
    + done.
  - split; cbn [trace world outcome]; try done.
    unfold tidy in *. by rewrite Ho in Ht.
  - split; cbn [trace world outcome]; try done.
    unfold tidy in *. by rewrite Ho in Ht.
Qed.

Ltac law_vacuous :=
  let H := fresh in
  intros H;
  repeat match type of H with
         | Forall _ (_ :: _) =>
             let H1 := fresh in
             apply Forall_cons_1 in H as [H1 H]; try discriminate H1
         end.

Ltac law_call :=
  intros ? ; unfold_calls; simpl; repeat (case_step; simpl);
  law_split; try done; try (by repeat constructor); try law_vacuous;
  try (by eexists []; split; [reflexivity | repeat constructor]).

(** The calls of the imported functions, and [checkAndSetAPIKey] *)
Section CallRules.
Variable x : Externals.
Variable inv : Invocation.
Variable P : Event → Prop.

Lemma lawful_log (m : Message) : P (ELog m) → lawful P (λ _, True) (log m).
Proof. intros. by apply lawful_emit. Qed.

Lemma lawful_error (m : Message) : P (EError m) → lawful P (λ _, True) (error m).
Proof. intros. by apply lawful_emit. Qed.

Lemma lawful_callWriteFileSync (path data : string) :
  P (EWriteFileSync path data) → lawful P (λ _, True) (callWriteFileSync path data).
Proof. intros HP. law_call. Qed.

Lemma lawful_callCheckAPIKey (p : string) :
  (∀ present, P (ECheckAPIKey p present)) → lawful P (λ _, True) (callCheckAPIKey x p).
Proof. intros HP. law_call. Qed.

Lemma lawful_callGetAndSetAPIKey (p : string) :
  P (EGetAndSetAPIKey p) → lawful P (λ _, True) (callGetAndSetAPIKey x p).
Proof. intros HP. law_call. Qed.

Lemma lawful_callConfirm :
  (∀ answer, P (EConfirm answer)) → lawful P (λ _, True) (callConfirm inv).
Proof. intros HP. law_call. Qed.

Lemma lawful_callInput :
  (∀ task, validate task = true → P (EInput task)) →
  lawful P (λ task, validate task = true) (callInput inv).
Proof.
  intros HP w. unfold callInput.
  destruct (find validate (taskAttempts inv)) as [task|] eqn:Hfind.
  - apply find_some in Hfind as [_ Hvalid]. unfold_calls. simpl.
    law_split; try done.
    + repeat constructor. by apply HP.
    + by repeat constructor.
    + by intros a [= <-].
  - by apply lawful_throw.
Qed.

Lemma lawful_forEach (chunks : list string) :
  (∀ chunk, chunk ∈ chunks → P (EStdoutWrite chunk)) →
  lawful P (λ _, True) (forEach (λ chunk, emit (EStdoutWrite chunk)) chunks).
Proof.
  induction chunks as [|c chunks IH]; intros HP.
  - by apply lawful_ret.
  - cbn [forEach]. eapply lawful_bind.
    + apply lawful_emit; [apply HP; by left | done].
    + intros _ _. apply IH. intros chunk Hin. apply HP. by right.
Qed.

Lemma lawful_streamAnswer (code question name provider : string) :
  P (EAskAI code question name provider) →
  (∀ chunk, chunk ∈ (askAI x code question name provider).1 → P (EStdoutWrite chunk)) →
  lawful P (λ _, True) (streamAnswer x code question name provider).
Proof.
  intros Hask Hchunks. unfold streamAnswer.
  eapply lawful_bind; [by apply lawful_emit | intros _ _].
  destruct (askAI x code question name provider) as [chunks failure].
  eapply lawful_bind; [by apply lawful_forEach | intros _ _].
  destruct failure; [apply lawful_throw | by apply lawful_ret].
Qed.

Lemma lawful_callGetAIEdits (c : Client) (code task name : string) :
  P (EGetAIEdits c code task name (getAIEdits x c code task name)) →
  lawful P (λ raw, getAIEdits x c code task name = Ok raw)
    (callGetAIEdits x c code task name).
Proof.
  intros HP. unfold callGetAIEdits. fold (getAIEdits x c code task name).
  eapply lawful_bind; [by apply lawful_emit | intros _ _].
  apply lawful_liftResult.
Qed.

Lemma lawful_callVerifyEditStream (raw : list EditPacket) (p : string) :
  P (EVerifyEditStream raw p) →
  lawful P (λ s, verifyEditStream x raw p = Ok s) (callVerifyEditStream x raw p).
Proof.
  intros HP. unfold callVerifyEditStream.
  eapply lawful_bind; [by apply lawful_emit | intros _ _].
  apply lawful_liftResult.
Qed.

Lemma lawful_callProcessEditStream (s : list VerificationResult) :
  P (EProcessEditStream s) → lawful P (λ _, True) (callProcessEditStream x s).
Proof. intros HP. law_call. Qed.

(** [checkAndSetAPIKey] *)
Lemma lawful_checkAndSetAPIKey (m : Model) :
  (∀ present, P (ECheckAPIKey (provider m) present)) →
  P (EGetAndSetAPIKey (provider m)) →
  P (ELog (MsgKeySet (provider m))) →
  lawful P (λ _, True) (checkAndSetAPIKey x m).
Proof.
  intros Hcheck Hget Hlog. unfold checkAndSetAPIKey.
  eapply lawful_bind; [by apply lawful_callCheckAPIKey | intros present _].
  eapply lawful_bind with (Q := λ _, True); [| intros _ _; by apply lawful_log].
  destruct present; simpl; [by apply lawful_ret | by apply lawful_callGetAndSetAPIKey].
Qed.

End CallRules.

(** The session, for the events that are [possible] *)
Section MainLaw.
Variable x : Externals.
Variable inv : Invocation.
Variable w0 : World.
Variable m : Model.
Variable pf : ProcessedFiles.
Hypothesis Hm : selected x inv m.
Hypothesis Hpf : compiledTo x inv w0 pf.

Local Abbreviation P := (possible x inv w0).

Lemma lawful_preamble :
  lawful P (λ task, validate task = true) (preamble x inv m pf).
Proof.
  unfold preamble.
  eapply lawful_bind.
  { apply lawful_checkAndSetAPIKey; intros; econstructor; eauto. }
  intros _ _.
  eapply lawful_bind with (Q := λ _, True).
  { destruct (overflow _) eqn:Hover; [| by apply lawful_ret].
    eapply lawful_bind; [apply lawful_log; constructor | intros _ _].
    eapply lawful_bind.
    { apply lawful_callConfirm. intros. by eapply possible_confirm. }
    intros continueAnyway _. destruct continueAnyway; simpl; [by apply lawful_ret|].
    eapply lawful_bind; [apply lawful_log; constructor | intros _ _].
    apply lawful_exit. constructor. by left. }
  intros _ _.
  eapply lawful_bind; [apply lawful_log; constructor | intros _ _].
  apply lawful_callInput. intros. by constructor.
Qed.

Lemma lawful_answerQuestion (task : string) :
  validate task = true → asksQuestion task = true →
  lawful P (λ _, True) (answerQuestion x m (code pf) task).
Proof.
  intros Hvalid Hask. unfold answerQuestion.
  eapply lawful_bind with (Q := λ _, True);
    [| intros _ _; apply lawful_log; constructor].
  apply lawful_streamAnswer.
  - by eapply possible_askAI.
  - intros chunk Hin. by eapply possible_stdout.
Qed.

Lemma lawful_editPipeline (task : string) :
  validate task = true → asksQuestion task = false →
  lawful P (λ _, True) (editPipeline x m (code pf) task).
Proof.
  intros Hvalid Hask. unfold editPipeline.
  eapply lawful_bind with
    (Q := λ raw, ∃ c, getAIEdits x c (code pf) task (name m) = Ok raw).
  { destruct (String.eqb (provider m) "anthropic") eqn:H1;
      [| destruct (String.eqb (provider m) "openai") eqn:H2;
         [| destruct (String.eqb (provider m) "fireworks") eqn:H3]].
    - eapply lawful_post; [apply lawful_callGetAIEdits | intros raw Hraw; by exists Claude].
      eapply possible_getAIEdits; eauto. unfold clientOf. by rewrite H1.
    - eapply lawful_post; [apply lawful_callGetAIEdits | intros raw Hraw; by exists GPT].
      eapply possible_getAIEdits; eauto. unfold clientOf. by rewrite H1, H2.
    - eapply lawful_post; [apply lawful_callGetAIEdits | intros raw Hraw; by exists Fireworks].
      eapply possible_getAIEdits; eauto. unfold clientOf. by rewrite H1, H2, H3.
    - eapply lawful_bind.
      + apply lawful_error. eapply possible_unsupported; eauto.
        unfold clientOf. by rewrite H1, H2, H3.
      + intros _ _. apply lawful_exit. constructor. by right. }
  intros raw _.
  eapply lawful_bind; [by apply lawful_emit; [constructor|] | intros _ _].
  eapply lawful_bind.
  { apply lawful_callCheckAPIKey. intros. apply possible_checkVerifierKey. }
  intros verifierKey _.
  eapply lawful_bind.
  { apply lawful_callVerifyEditStream. eapply possible_verify; eauto.
    destruct verifierKey; auto. }
  intros s Hs. apply lawful_callProcessEditStream.
  eapply possible_apply. exact Hs.
Qed.

Lemma lawful_session : lawful P (λ _, True) (session x inv m pf).
Proof.
  unfold session.
  eapply lawful_bind; [apply lawful_preamble | intros task Hvalid].
  eapply lawful_bind with (Q := λ _, True);
    [| intros _ _; apply lawful_log; constructor].
  destruct (JS.startsWith (JS.toLowerCase task) "ask ") eqn:Hask.
  - by apply lawful_answerQuestion.
  - by apply lawful_editPipeline.
Qed.

End MainLaw.

(** ** The stages of [main] in closed form *)
Section Normal.
Variable x : Externals.
Variable inv : Invocation.
#[local] Arguments JS.slice : simpl never.

Lemma checkAndSetAPIKey_run (m : Model) (w : World) :
  checkAndSetAPIKey x m w =
  if checkAPIKey x (provider m) (keys w) then
    mkRun [ECheckAPIKey (provider m) true; ELog (MsgKeySet (provider m))] w (Return tt)
  else
    match getAndSetAPIKey x (provider m) (keys w) with
    | Ok ks =>
        mkRun [ECheckAPIKey (provider m) false; EGetAndSetAPIKey (provider m);
               ELog (MsgKeySet (provider m))] (withKeys w ks) (Return tt)
    | Err e =>
        mkRun [ECheckAPIKey (provider m) false; EGetAndSetAPIKey (provider m)]
          w (Throw e)
    end.
Proof.
  unfold checkAndSetAPIKey, withKeys. unfold_calls. simpl.
  repeat (case_step; simpl in * ); try reflexivity; try congruence.
Qed.


Lemma preamble_normal (m : Model) (pf : ProcessedFiles) (w : World) :
  preamble x inv m pf w =
  match outcome (checkAndSetAPIKey x m w) with
  | Return _ =>
      sizeCheck x inv m pf (trace (checkAndSetAPIKey x m w)) (world (checkAndSetAPIKey x m w))
  | Exit c =>
      mkRun (trace (checkAndSetAPIKey x m w)) (world (checkAndSetAPIKey x m w)) (Exit c)
  | Throw e =>
      mkRun (trace (checkAndSetAPIKey x m w)) (world (checkAndSetAPIKey x m w)) (Throw e)
  end.
Proof.
  unfold preamble. rewrite bind_run.
  destruct (checkAndSetAPIKey x m w) as [t w1 [[]|c|e]]; cbn [outcome trace world];
    [| done..].
  unfold sizeCheck, askTask, overflowWarning, loaded, prepend.
  destruct (overflow _) eqn:Hover.
  - unfold callConfirm, callInput. unfold_calls. simpl.
    destruct (confirmAnswer inv) as [[]|]; simpl.
    + destruct (find validate (taskAttempts inv)); simpl;
        by rewrite <- ?app_assoc.
    + by rewrite <- ?app_assoc.
    + done.
  - unfold callInput. unfold_calls. simpl.
    destruct (find validate (taskAttempts inv)); simpl; by rewrite <- ?app_assoc.
Qed.

End Normal.

Section MainNormal.
Variable x : Externals.
Variable inv : Invocation.

Lemma session_normal (m : Model) (pf : ProcessedFiles) (w : World) :
  session x inv m pf w =
  match outcome (preamble x inv m pf w) with
  | Return task =>
      let b := branch x m pf task (world (preamble x inv m pf w)) in
      mkRun (trace (preamble x inv m pf w) ++ trace b ++ closing (outcome b))
        (world b) (outcome b)
  | Exit c =>
      mkRun (trace (preamble x inv m pf w)) (world (preamble x inv m pf w)) (Exit c)
  | Throw e =>
      mkRun (trace (preamble x inv m pf w)) (world (preamble x inv m pf w)) (Throw e)
  end.
Proof.
  unfold session. rewrite bind_run.
  destruct (outcome (preamble x inv m pf w)) as [task| |]; [| done..].
  unfold prepend. rewrite bind_run. fold (asksQuestion task). fold (branch x m pf task).
  cbn zeta.
  destruct (outcome (branch x m pf task _)) as [[]| |]; simpl; by rewrite ?app_nil_r.
Qed.

Lemma main_normal (w : World) :
  main x inv w =
  let sel := parseArgs x (argv inv) in
  let compile := EProcessFiles (fileInputs sel) (includeImports sel) in
  if bool_decide (head (argv inv) = Some "revert") then
    mkRun [ERevertLastChanges (revertLastChanges x (files w, history w)).2]
      {| files := (revertLastChanges x (files w, history w)).1.1;
         history := (revertLastChanges x (files w, history w)).1.2;
         keys := keys w |}
      match (revertLastChanges x (files w, history w)).2 with
      | Ok _ => Return tt
      | Err e => Throw e
      end
  else if bool_decide (length (fileInputs sel) = 0%nat) then
    mkRun [EError MsgNoFiles; EExit 1] w (Exit 1)
  else
    match processFiles x (fileInputs sel) (includeImports sel) (files w) with
    | Err e => mkRun [compile] w (Throw e)
    | Ok pf =>
        if printCodeAndExit sel then
          match writeFile (files w) "compiled-code.txt" (code pf) with
          | Some fs' =>
              mkRun [compile; EWriteFileSync "compiled-code.txt" (code pf);
                     ELog MsgSaved; EExit 0] (withFiles w fs') (Exit 0)
          | None =>
              mkRun [compile; EWriteFileSync "compiled-code.txt" (code pf)]
                w (Throw "EACCES")
          end
        else
          match selectedModel sel with
          | Some m => prepend (opening x inv m) (session x inv m pf w)
          | None =>
              mkRun [compile; ELog MsgWelcome;
                     ELog (MsgAvailableModels (map nickName (models x)));
                     ELog MsgAppendHint] w (Throw "TypeError")
          end
    end.
Proof.
  cbn zeta. case_bool_decide as Hrevert; [by apply main_revert|].
  unfold main. rewrite bool_decide_eq_false_2 by done.
  case_bool_decide as Hfiles; [done|].
  rewrite bind_run, callProcessFiles_run. cbn [outcome trace world].
  destruct (processFiles x _ _ (files w)) as [pf|e]; [| done].
  destruct (printCodeAndExit _).
  - unfold callWriteFileSync, prepend, withFiles. unfold_calls. simpl.
    by destruct (writeFile (files w) "compiled-code.txt" (code pf)).
  - unfold listAvailableModels.
    destruct (selectedModel _) as [m|]; by repeat (rewrite bind_run; simpl).
Qed.

End MainNormal.

(** The two flags are read off the arguments as they come. *)
Lemma parseArgs_flags (x : Externals) (args : list string) :
  printCodeAndExit (parseArgs x args) = bool_decide ("-p" ∈ args)
  ∧ includeImports (parseArgs x args) = bool_decide ("-a" ∈ args).
Proof.
  unfold parseArgs. destruct (pop _) as [n l]. by destruct (findModel x n).
Qed.

Lemma lawfulRun_prepend {A : Type} (P : Event → Prop) (Q : A → Prop) (w : World)
    (t : list Event) (r : Run A) :
  Forall P t → Forall (λ e, isExit e = false) t →
  lawfulRun P Q w r → lawfulRun P Q w (prepend t r).
Proof.
  intros HP Hx [He Ht Hd Hk Hr]. split; unfold prepend; cbn [trace world outcome].
  - by apply Forall_app.
  - by apply (tidy_prepend t r).
  - intros [_ H]%Forall_app. by apply Hd.
  - intros [_ H]%Forall_app. by apply Hk.
  - done.
Qed.

Ltac each_event := repeat first [apply Forall_nil_2 | apply Forall_cons_2].

(** Every run of [main] obeys the law. *)
Lemma main_law (x : Externals) (inv : Invocation) (w : World) :
  lawfulRun (possible x inv w) (λ _, True) w (main x inv w).
Proof.
  rewrite main_normal. cbn zeta.
  case_bool_decide as Hrevert.
  { law_split; try done.
    - each_event. by apply possible_revert.
    - destruct (revertLastChanges x _).2; by each_event.
    - law_vacuous. }
  case_bool_decide as Hfiles.
  { law_split; try done.
    - each_event.
      + apply possible_noFiles. by destruct (fileInputs _).
      + apply possible_exit. by right.
    - exists [EError MsgNoFiles]. split; [done | by each_event]. }
  assert (fileInputs (parseArgs x (argv inv)) ≠ []) as Hsome
    by (intros Hnil; by rewrite Hnil in Hfiles).
  destruct (processFiles x _ _ (files w)) as [pf|e] eqn:Hpf.
  2:{ law_split; try done; each_event; try done. by apply possible_processFiles. }
  destruct (printCodeAndExit _) eqn:Hp.
  { assert ("-p" ∈ argv inv) as Hflag.
    { rewrite (proj1 (parseArgs_flags x (argv inv))) in Hp.
      by apply bool_decide_eq_true_1 in Hp. }
    destruct (writeFile _ _ _) as [fs'|]; law_split; try done; try law_vacuous.
    - each_event.
      + by apply possible_processFiles.
      + by apply possible_write.
      + apply possible_log.
      + apply possible_exit. by left.
    - eexists [_; _; _]. split; [done|]. by each_event.
    - each_event; [by apply possible_processFiles | by apply possible_write].
    - by each_event. }
  destruct (selectedModel _) as [m|] eqn:Hm.
  - apply lawfulRun_prepend.
    + unfold opening. each_event; try apply possible_log.
      by apply possible_processFiles.
    + unfold opening. by each_event.
    + by apply (lawful_session x inv w m pf).
  - law_split; try done.
    + each_event; try apply possible_log. by apply possible_processFiles.
    + by each_event.
Qed.

Ltac in_list H :=
  repeat first
    [ rewrite elem_of_app in H
    | rewrite elem_of_cons in H
    | rewrite elem_of_nil in H ];
  repeat match type of H with _ ∨ _ => destruct H as [H | H] end;
  try done.

(** ** How the preamble and [main] can end *)
Section Cases.
Variable x : Externals.
Variable inv : Invocation.

Lemma askTask_cases (m : Model) (pf : ProcessedFiles) (t : list Event) (w : World) :
  Forall (λ e, preliminary e = true) t →
  let r := askTask x inv m pf t w in
  (∃ pre task,
     trace r = pre ++ [EInput task] ∧ outcome r = Return task
     ∧ Forall (λ e, preliminary e = true) pre)
  ∨ (∃ e, outcome r = Throw e ∧ Forall (λ e, preliminary e = true) (trace r)).
Proof.
  intros Ht. unfold askTask.
  destruct (find validate (taskAttempts inv)) as [task|]; cbn [trace outcome].
  - left. exists (t ++ [loaded x m pf]), task.
    split; [by rewrite <- app_assoc|]. split; [done|].
    apply Forall_app. split; [done | by each_event].
  - right. eexists. split; [done|].
    apply Forall_app. split; [done | by each_event].
Qed.

Lemma sizeCheck_cases (m : Model) (pf : ProcessedFiles) (t : list Event) (w : World) :
  Forall (λ e, preliminary e = true) t →
  let r := sizeCheck x inv m pf t w in
  (∃ pre task,
     trace r = pre ++ [EInput task] ∧ outcome r = Return task
     ∧ Forall (λ e, preliminary e = true) pre)
  ∨ (∃ pre,
       trace r = pre ++ [EConfirm false; ELog MsgReduceInput; EExit 0]
       ∧ outcome r = Exit 0 ∧ Forall (λ e, preliminary e = true) pre)
  ∨ (∃ e, outcome r = Throw e ∧ Forall (λ e, preliminary e = true) (trace r)).
Proof.
  intros Ht. unfold sizeCheck.
  destruct (overflow _).
  - destruct (confirmAnswer inv) as [[]|]; cbn [trace outcome].
    + destruct (askTask_cases m pf (t ++ [overflowWarning x m pf; EConfirm true]) w)
        as [H | H]; [| by left | by right; right].
      apply Forall_app. split; [done | by each_event].
    + right. left. exists (t ++ [overflowWarning x m pf]).
      split; [by rewrite <- app_assoc|]. split; [done|].
      apply Forall_app. split; [done | by each_event].
    + right. right. eexists. split; [done|].
      apply Forall_app. split; [done | by each_event].
  - destruct (askTask_cases m pf t w Ht) as [H | H]; [by left | by right; right].
Qed.

Lemma checkAndSetAPIKey_preliminary (m : Model) (w : World) :
  Forall (λ e, preliminary e = true) (trace (checkAndSetAPIKey x m w))
  ∧ ∀ c, outcome (checkAndSetAPIKey x m w) ≠ Exit c.
Proof.
  rewrite checkAndSetAPIKey_run.
  destruct (checkAPIKey x _ _); [| destruct (getAndSetAPIKey x _ _)];
    cbn [trace outcome]; (split; [by each_event | done]).
Qed.

Lemma preamble_cases (m : Model) (pf : ProcessedFiles) (w : World) :
  let r := preamble x inv m pf w in
  (∃ pre task,
     trace r = pre ++ [EInput task] ∧ outcome r = Return task
     ∧ Forall (λ e, preliminary e = true) pre)
  ∨ (∃ pre,
       trace r = pre ++ [EConfirm false; ELog MsgReduceInput; EExit 0]
       ∧ outcome r = Exit 0 ∧ Forall (λ e, preliminary e = true) pre)
  ∨ (∃ e, outcome r = Throw e ∧ Forall (λ e, preliminary e = true) (trace r)).
Proof.
  cbn zeta. rewrite preamble_normal.
  destruct (checkAndSetAPIKey_preliminary m w) as [Hpre Hexit].
  destruct (outcome (checkAndSetAPIKey x m w)) as [[]|c|e].
  - by apply sizeCheck_cases.
  - by destruct (Hexit c).
  - right. right. by exists e.
Qed.

End Cases.

Section MainCases.
Variable x : Externals.
Variable inv : Invocation.

Lemma main_cases (w : World) :
  Forall (λ e, early e = true) (trace (main x inv w))
  ∨ ∃ m pf,
      selected x inv m ∧ compiledTo x inv w pf
      ∧ main x inv w = prepend (opening x inv m) (session x inv m pf w).
Proof.
  rewrite main_normal. cbn zeta.
  case_bool_decide; [left; by each_event|].
  case_bool_decide; [left; by each_event|].
  destruct (processFiles x _ _ (files w)) as [pf|e] eqn:Hpf; [| left; by each_event].
  destruct (printCodeAndExit _).
  { left. destruct (writeFile _ _ _); by each_event. }
  destruct (selectedModel _) as [m|] eqn:Hm; [| left; by each_event].
  right. by exists m, pf.
Qed.

Lemma branch_afterTask (m : Model) (pf : ProcessedFiles) (task : string) (w : World) :
  Forall (λ e, afterTask e = true)
    (trace (branch x m pf task w) ++ closing (outcome (branch x m pf task w))).
Proof.
  apply Forall_app. split; [| by destruct (outcome _); each_event].
  unfold branch. destruct (asksQuestion task).
  - rewrite answerQuestion_run. cbn [trace]. apply Forall_cons_2; [done|].
    apply Forall_app. split.
    + apply Forall_forall. intros e He. apply list_elem_of_In in He.
      by apply in_map_iff in He as (c & <- & _).
    + destruct (askAI _ _ _ _ _).2; by each_event.
  - rewrite editPipeline_run.
    repeat (case_step; cbn [trace app]); by each_event.
Qed.

Lemma opening_early (m : Model) : Forall (λ e, early e = true) (opening x inv m).
Proof. unfold opening. by each_event. Qed.

End MainCases.

(** ** The task that was entered and the branch that follows it *)
Section Tasks.
Variable x : Externals.
Variable inv : Invocation.

(** The task that the preamble returns is the first entry of the user that
    the validator lets through. *)
Lemma preamble_task (m : Model) (pf : ProcessedFiles) (w : World) (task : string) :
  outcome (preamble x inv m pf w) = Return task →
  find validate (taskAttempts inv) = Some task.
Proof.
  rewrite preamble_normal.
  destruct (outcome (checkAndSetAPIKey x m w)) as [[]|c|e]; [| done..].
  unfold sizeCheck, askTask.
  destruct (overflow _); [destruct (confirmAnswer inv) as [[]|] |];
    destruct (find validate (taskAttempts inv)); cbn [outcome]; congruence.
Qed.

(** A run either ends before a task is entered, or it is the opening, the
    key events and log lines, the prompt, and then the branch for the task
    with the closing line. *)
Lemma main_task_cases (w : World) :
  (∀ e, e ∈ trace (main x inv w) →
        early e = true ∨ preliminary e = true ∨ e = EConfirm false)
  ∨ ∃ m pf pre task,
      selected x inv m ∧ compiledTo x inv w pf
      ∧ find validate (taskAttempts inv) = Some task
      ∧ Forall (λ e, preliminary e = true) pre
      ∧ main x inv w
        = let b := branch x m pf task (world (preamble x inv m pf w)) in
          mkRun (opening x inv m ++ pre ++ [EInput task] ++ trace b ++ closing (outcome b))
            (world b) (outcome b).
Proof.
  destruct (main_cases x inv w) as [Hearly | (m & pf & Hm & Hpf & Hmain)].
  { left. intros e He. left. by apply (proj1 (Forall_forall _ _) Hearly). }
  rewrite Hmain, session_normal.
  pose proof (preamble_task m pf w) as Htask.
  pose proof (opening_early x inv m) as Hopen.
  destruct (preamble_cases x inv m pf w)
    as [(pre & task & Ht & Ho & Hpre) | [(pre & Ht & Ho & Hpre) | (e & Ho & Hpre)]];
    rewrite Ho in *; unfold prepend; cbn [trace world outcome].
  - right. exists m, pf, pre, task. repeat (split; [by auto|]).
    cbn zeta. rewrite Ht. by rewrite <- !app_assoc.
  - left. rewrite Ht. intros e He. rewrite !elem_of_app in He.
    destruct He as [He | [He | He]].
    + left. by apply (proj1 (Forall_forall _ _) Hopen).
    + right. left. by apply (proj1 (Forall_forall _ _) Hpre).
    + in_list He; subst; auto.
  - left. intros e' He. rewrite elem_of_app in He. destruct He as [He | He].
    + left. by apply (proj1 (Forall_forall _ _) Hopen).
    + right. left. by apply (proj1 (Forall_forall _ _) Hpre).
Qed.

(** The prompt for the task is answered at most once in a run. *)
Lemma main_one_task (w : World) (m : Model) (pf : ProcessedFiles)
    (pre : list Event) (task entered : string) :
  Forall (λ e, preliminary e = true) pre →
  let b := branch x m pf task (world (preamble x inv m pf w)) in
  EInput entered
    ∈ opening x inv m ++ pre ++ [EInput task] ++ trace b ++ closing (outcome b) →
  entered = task.
Proof.
  intros Hpre b Hin. rewrite !elem_of_app in Hin.
  destruct Hin as [Hin | [Hin | [Hin | Hin]]].
  - by pose proof (proj1 (Forall_forall _ _) (opening_early x inv m) _ Hin).
  - by pose proof (proj1 (Forall_forall _ _) Hpre _ Hin).
  - apply list_elem_of_singleton in Hin. by injection Hin.
  - rewrite <- elem_of_app in Hin.
    by pose proof (proj1 (Forall_forall _ _) (branch_afterTask x m pf task _) _ Hin).
Qed.

(** An event of the branch is not an event of what comes before it. *)
Lemma main_branch_event (w : World) (m : Model) (pf : ProcessedFiles)
    (pre : list Event) (task : string) (e : Event) :
  Forall (λ e, preliminary e = true) pre →
  early e = false → preliminary e = false → isInput e = false →
  let b := branch x m pf task (world (preamble x inv m pf w)) in
  e ∈ opening x inv m ++ pre ++ [EInput task] ++ trace b ++ closing (outcome b) →
  e ∈ trace b.
Proof.
  intros Hpre He Hp Hi b Hin. rewrite !elem_of_app in Hin.
  destruct Hin as [Hin | [Hin | [Hin | [Hin | Hin]]]]; [| | | done |].
  - pose proof (proj1 (Forall_forall _ _) (opening_early x inv m) _ Hin). congruence.
  - pose proof (proj1 (Forall_forall _ _) Hpre _ Hin). congruence.
  - apply list_elem_of_singleton in Hin. by subst.
  - destruct (outcome b); cbn [closing] in Hin; in_list Hin; by subst.
Qed.

(** A provider client is called first in the edit branch, with the task of
    the branch. *)
Lemma branch_getAIEdits (m : Model) (pf : ProcessedFiles) (entered : string)
    (w : World) (c : Client) (compiled task nm : string)
    (r : Result (list EditPacket)) :
  EGetAIEdits c compiled task nm r ∈ trace (branch x m pf entered w) →
  task = entered ∧ asksQuestion entered = false
  ∧ clientOf (provider m) = Some c
  ∧ compiled = code pf ∧ nm = name m
  ∧ r = getAIEdits x c compiled task nm
  ∧ ∃ post,
      trace (branch x m pf entered w) = EGetAIEdits c compiled task nm r :: post.
Proof.
  unfold branch. destruct (asksQuestion entered).
  { rewrite answerQuestion_run. cbn [trace]. intros Hin.
    apply elem_of_cons in Hin as [Hin | Hin]; [done|].
    apply elem_of_app in Hin as [Hin | Hin].
    - apply list_elem_of_In, in_map_iff in Hin as (ch & Hch & _). done.
    - destruct (askAI _ _ _ _ _).2; by in_list Hin. }
  rewrite editPipeline_run.
  destruct (clientOf (provider m)) as [c'|]; cbn zeta.
  - repeat (case_step; cbn [trace app]); intros Hin; in_list Hin;
      injection Hin as -> -> -> -> ->; repeat (split; [done|]); by eexists.
  - cbn [trace]. intros Hin. by in_list Hin.
Qed.

(** [askAI] is called first in the question branch, with the trimmed rest
    of the task of the branch. *)
Lemma branch_askAI (m : Model) (pf : ProcessedFiles) (entered : string)
    (w : World) (compiled question nm prov : string) :
  EAskAI compiled question nm prov ∈ trace (branch x m pf entered w) →
  asksQuestion entered = true
  ∧ compiled = code pf ∧ question = JS.trim (JS.slice 4 entered)
  ∧ nm = name m ∧ prov = provider m
  ∧ ∃ post,
      trace (branch x m pf entered w) = EAskAI compiled question nm prov :: post.
Proof.
  unfold branch. destruct (asksQuestion entered).
  - rewrite answerQuestion_run. cbn [trace]. intros Hin.
    apply elem_of_cons in Hin as [Hin | Hin].
    + injection Hin as -> -> -> ->. repeat (split; [done|]). by eexists.
    + exfalso. apply elem_of_app in Hin as [Hin | Hin].
      * apply list_elem_of_In, in_map_iff in Hin as (ch & Hch & _). done.
      * destruct (askAI _ _ _ _ _).2; by in_list Hin.
  - rewrite editPipeline_run.
    destruct (clientOf (provider m)) as [c'|]; cbn zeta.
    + repeat (case_step; cbn [trace app]); intros Hin; by in_list Hin.
    + cbn [trace]. intros Hin. by in_list Hin.
Qed.

End Tasks.

(** ** What every run does and does not do *)
Section RunLaws.
Variable x : Externals.
Variable inv : Invocation.
Variable w : World.

(** X1: [process.exit] ends the run.  An exit event is the last event of
    the trace, the run ends with its code, and the code is 0 or 1. *)
Theorem exit_is_final (c : Z) :
  EExit c ∈ trace (main x inv w) →
  outcome (main x inv w) = Exit c
  ∧ (c = 0 ∨ c = 1)
  ∧ ∃ pre, trace (main x inv w) = pre ++ [EExit c]
           ∧ Forall (λ e, isExit e = false) pre.
Proof.
  intros Hin. destruct (main_law x inv w) as [He Ht _ _ _].
  assert (c = 0 ∨ c = 1) as Hc.
  { pose proof (proj1 (Forall_forall _ _) He _ Hin) as Hp. by inversion Hp. }
  unfold tidy in Ht. destruct (outcome (main x inv w)) as [a|c'|e].
  - by pose proof (proj1 (Forall_forall _ _) Ht _ Hin).
  - destruct Ht as (pre & Heq & Hpre). rewrite Heq in Hin.
    apply elem_of_app in Hin as [Hin | Hin].
    + by pose proof (proj1 (Forall_forall _ _) Hpre _ Hin).
    + apply list_elem_of_singleton in Hin. injection Hin as ->.
      split; [done|]. split; [done|]. by exists pre.
  - by pose proof (proj1 (Forall_forall _ _) Ht _ Hin).
Qed.

Lemma main_exit_code (c : Z) :
  outcome (main x inv w) = Exit c → c = 0 ∨ c = 1.
Proof.
  intros Ho. destruct (main_law x inv w) as [He Ht _ _ _].
  unfold tidy in Ht. rewrite Ho in Ht. destruct Ht as (pre & Heq & _).
  rewrite Heq in He. apply Forall_app in He as [_ He].
  apply Forall_cons_1 in He as [Hp _]. by inversion Hp.
Qed.

(** X2: the program, with the [catch] of line 199, ends by returning or with
    exit code 0 or 1; an error thrown in [main] never leaves it. *)
Theorem program_ends :
  outcome (program x inv w) = Return tt
  ∨ outcome (program x inv w) = Exit 0
  ∨ outcome (program x inv w) = Exit 1.
Proof.
  unfold program. destruct (outcome (main x inv w)) as [[]|c|e] eqn:Ho.
  - left. by rewrite Ho.
  - destruct (main_exit_code c Ho) as [-> | ->]; rewrite Ho; auto.
  - by left.
Qed.

Lemma main_disk_frame :
  Forall (λ e, touchesFiles e = false) (trace (main x inv w)) →
  files (world (main x inv w)) = files w
  ∧ history (world (main x inv w)) = history w.
Proof. intros Hq. by destruct (main_law x inv w) as [_ _ Hd _ _], (Hd Hq). Qed.

(** X4: the only provider for which the program asks the user for an API key
    is the provider of the selected model (never the one of the verifier),
    and a run without such a prompt leaves the stored keys as they were. *)
Theorem key_prompt :
  (∀ p, EGetAndSetAPIKey p ∈ trace (main x inv w) →
        ∃ m, selectedModel (parseArgs x (argv inv)) = Some m ∧ p = provider m)
  ∧ (Forall (λ e, promptsKey e = false) (trace (main x inv w)) →
     keys (world (main x inv w)) = keys w).
Proof.
  destruct (main_law x inv w) as [He _ _ Hk _]. split; [| done].
  intros p Hin. pose proof (proj1 (Forall_forall _ _) He _ Hin) as Hp.
  inversion Hp; subst. by eexists.
Qed.

(** X5: [revertLastChanges] is called exactly in the runs whose first
    argument is "revert". *)
Theorem revert_iff_first_argument :
  (∃ r, ERevertLastChanges r ∈ trace (main x inv w)) ↔ head (argv inv) = Some "revert".
Proof.
  split.
  - intros [r Hin]. destruct (main_law x inv w) as [He _ _ _ _].
    pose proof (proj1 (Forall_forall _ _) He _ Hin) as Hp. by inversion Hp.
  - intros Hrevert. rewrite main_revert by done. eexists. cbn [trace]. by left.
Qed.

(** X6: a provider client is called only with the client of the selected
    model's provider, the compiled text of [processFiles], the name of the
    selected model, and the task as the user entered it: the answer of the
    prompt, which is the first entry that is not blank, and which is not a
    question; the call is the next event after the prompt. *)
Theorem provider_call (c : Client) (compiled task nm : string)
    (r : Result (list EditPacket)) :
  EGetAIEdits c compiled task nm r ∈ trace (main x inv w) →
  ∃ m pf pre post,
    selectedModel (parseArgs x (argv inv)) = Some m
    ∧ processFiles x (fileInputs (parseArgs x (argv inv)))
        (includeImports (parseArgs x (argv inv))) (files w) = Ok pf
    ∧ clientOf (provider m) = Some c
    ∧ compiled = code pf
    ∧ nm = name m
    ∧ r = getAIEdits x c compiled task nm
    ∧ find validate (taskAttempts inv) = Some task
    ∧ JS.trim task ≠ ""
    ∧ JS.startsWith (JS.toLowerCase task) "ask " = false
    ∧ trace (main x inv w)
      = opening x inv m ++ pre
          ++ [EInput task; EGetAIEdits c compiled task nm r] ++ post
    ∧ Forall (λ e, preliminary e = true) pre.
Proof.
  intros Hin.
  destruct (main_task_cases x inv w)
    as [Hno | (m & pf & pre & entered & Hm & Hpf & Hfind & Hpre & Hmain)].
  { by destruct (Hno _ Hin) as [H | [H | H]]. }
  rewrite Hmain in Hin |- *. cbn zeta in *. cbn [trace] in *.
  apply (main_branch_event x inv w m pf pre entered
           (EGetAIEdits c compiled task nm r) Hpre eq_refl eq_refl eq_refl) in Hin.
  apply branch_getAIEdits in Hin as (-> & Hask & Hc & -> & -> & -> & post & Hpost).
  exists m, pf, pre, (post ++ closing (outcome (branch x m pf entered
                                          (world (preamble x inv m pf w))))).
  repeat (split; [done|]).
  split; [| split; [done | split; [| done]]].
  - apply find_some in Hfind as [_ Hvalid]. unfold validate in Hvalid.
    apply negb_true_iff in Hvalid. by apply String.eqb_neq in Hvalid.
  - by rewrite Hpost.
Qed.

End RunLaws.

Section FurtherRuns.
Variable x : Externals.
Variable inv : Invocation.
Variable w : World.

Lemma filter_snoc_cases (args : list string) :
  fileInputs (parseArgs x args) = filter (λ input, isFileArg input = true) args
  ∨ fileInputs (parseArgs x args)
    = removelast (filter (λ input, isFileArg input = true) args).
Proof.
  unfold parseArgs, pop.
  destruct (snoc_cases (filter (λ input, isFileArg input = true) args))
    as [Hnil | (front & a & Hsnoc)].
  - rewrite Hnil. simpl. by left.
  - rewrite Hsnoc, last_snoc, removelast_last.
    destruct (findModel x (Some a)); cbn [fileInputs]; [by right|].
    assert (JS.truthy a = true) as ->; [| by left].
    apply isFileArg_truthy.
    assert (a ∈ filter (λ input, isFileArg input = true) args) as Hin
      by (rewrite Hsnoc; set_solver).
    by apply list_elem_of_filter in Hin as [? _].
Qed.

Lemma removelast_subseteq {A : Type} (l : list A) : removelast l ⊆ l.
Proof.
  destruct (snoc_cases l) as [-> | (front & a & ->)]; [done|].
  rewrite removelast_last. set_solver.
Qed.

(** X8: the file arguments handed on are arguments of the command line
    that are neither empty nor flags; with a non-empty table of models a
    model of the table is always selected, with an empty one none. *)
Theorem parseArgs_invariants (args : list string) :
  (∀ input, input ∈ fileInputs (parseArgs x args) →
            input ∈ args ∧ input ≠ "" ∧ JS.startsWith input "-" = false)
  ∧ (models x ≠ [] →
     ∃ m, selectedModel (parseArgs x args) = Some m ∧ m ∈ models x)
  ∧ (models x = [] → selectedModel (parseArgs x args) = None).
Proof.
  split; [| split].
  - intros input Hin.
    assert (input ∈ filter (λ input, isFileArg input = true) args) as Hf.
    { destruct (filter_snoc_cases args) as [Heq | Heq]; rewrite Heq in Hin; [done|].
      by apply removelast_subseteq. }
    apply list_elem_of_filter in Hf as [Hfile Hargs]. split; [done|].
    unfold isFileArg in Hfile. apply andb_true_iff in Hfile as [Hflag Htruthy].
    split; [by intros -> | by apply negb_true_iff].
  - intros Hmodels. unfold parseArgs. destruct (pop _) as [[n|] l].
    + destruct (findModel x (Some n)) as [m|] eqn:Hfind; cbn [selectedModel].
      * exists m. split; [done|]. by apply findModel_Some in Hfind as [? _].
      * destruct (models x) as [|m ms]; [done|]. exists m. split; [done | by left].
    + cbn [findModel selectedModel].
      destruct (models x) as [|m ms]; [done|]. exists m. split; [done | by left].
  - intros Hmodels. unfold parseArgs. destruct (pop _) as [[n|] l].
    + unfold findModel. rewrite Hmodels. done.
    + cbn [findModel selectedModel]. by rewrite Hmodels.
Qed.

(** X7: [processFiles] is called only in runs that do not revert, as the
    first event, with the non-empty list of file arguments and with the
    import flag that tells whether "-a" is among the arguments. *)
Theorem processFiles_call (inputs : list string) (imports : bool) :
  EProcessFiles inputs imports ∈ trace (main x inv w) →
  inputs = fileInputs (parseArgs x (argv inv))
  ∧ inputs ≠ []
  ∧ imports = bool_decide ("-a" ∈ argv inv)
  ∧ head (argv inv) ≠ Some "revert"
  ∧ ∃ rest, trace (main x inv w) = EProcessFiles inputs imports :: rest.
Proof.
  intros Hin. destruct (main_law x inv w) as [He _ _ _ _].
  pose proof (proj1 (Forall_forall _ _) He _ Hin) as Hp.
  inversion Hp as [|Hrevert Hsome| | | | | | | | | | | | | | | |]; subst.
  split; [done|]. split; [done|].
  split; [apply (parseArgs_flags x (argv inv))|]. split; [done|].
  rewrite main_normal. cbn zeta.
  rewrite bool_decide_eq_false_2 by done.
  rewrite bool_decide_eq_false_2 by (by destruct (fileInputs _)).
  destruct (processFiles x _ _ (files w)) as [pf|e]; [| by eexists].
  destruct (printCodeAndExit _).
  - destruct (writeFile _ _ _); by eexists.
  - destruct (selectedModel _); by eexists.
Qed.

(** X9: when the user declines to continue after the overflow warning, the
    run ends with exit code 0 right after the advice to reduce the input;
    before it there are only the opening lines, the key events and log
    lines, so no task is asked for and no model is called, and files and
    history are unchanged. *)
Theorem overflow_decline :
  EConfirm false ∈ trace (main x inv w) →
  outcome (main x inv w) = Exit 0
  ∧ files (world (main x inv w)) = files w
  ∧ history (world (main x inv w)) = history w
  ∧ ∃ m pre,
      selectedModel (parseArgs x (argv inv)) = Some m
      ∧ trace (main x inv w)
        = opening x inv m ++ pre ++ [EConfirm false; ELog MsgReduceInput; EExit 0]
      ∧ Forall (λ e, preliminary e = true) pre.
Proof.
  intros Hin. destruct (main_cases x inv w) as [Hearly | (m & pf & Hm & Hpf & Hmain)].
  { by pose proof (proj1 (Forall_forall _ _) Hearly _ Hin). }
  assert (Forall (λ e, touchesFiles e = false) (trace (main x inv w))
          ∧ outcome (main x inv w) = Exit 0
          ∧ ∃ pre,
              trace (main x inv w)
              = opening x inv m ++ pre ++ [EConfirm false; ELog MsgReduceInput; EExit 0]
              ∧ Forall (λ e, preliminary e = true) pre) as (Hq & Ho & pre & Ht & Hpre).
  2:{ destruct (main_disk_frame x inv w Hq). split; [done|]. split; [done|].
      split; [done|]. by exists m, pre. }
  rewrite Hmain in Hin |- *. unfold prepend in *. cbn [trace outcome] in *.
  pose proof (opening_early x inv m) as Hopen.
  apply elem_of_app in Hin as [Hin | Hin].
  { by pose proof (proj1 (Forall_forall _ _) Hopen _ Hin). }
  rewrite session_normal in Hin |- *.
  destruct (preamble_cases x inv m pf w)
    as [(pre & task & Ht & Ho & Hpre) | [(pre & Ht & Ho & Hpre) | (e & Ho & Hpre)]];
    rewrite Ho in Hin |- *; cbn [trace outcome] in *.
  - exfalso. rewrite Ht in Hin.
    pose proof (branch_afterTask x m pf task (world (preamble x inv m pf w))) as Hb.
    rewrite !elem_of_app, list_elem_of_singleton in Hin.
    destruct Hin as [[Hin | Hin] | Hin]; [| done |].
    + by pose proof (proj1 (Forall_forall _ _) Hpre _ Hin).
    + rewrite <- elem_of_app in Hin.
      by pose proof (proj1 (Forall_forall _ _) Hb _ Hin).
  - rewrite Ht. split; [| split; [done | by exists pre]].
    apply Forall_app. split; [unfold opening; by each_event|].
    apply Forall_app. split; [| by each_event].
    eapply Forall_impl; [exact Hpre|]. by intros [].
  - by pose proof (proj1 (Forall_forall _ _) Hpre _ Hin).
Qed.

(** X10: the user is asked to confirm only when the estimated tokens exceed
    the context window minus the output length of the selected model. *)
Theorem confirm_only_on_overflow (answer : bool) :
  EConfirm answer ∈ trace (main x inv w) →
  ∃ m pf,
    selectedModel (parseArgs x (argv inv)) = Some m
    ∧ processFiles x (fileInputs (parseArgs x (argv inv)))
        (includeImports (parseArgs x (argv inv))) (files w) = Ok pf
    ∧ estimateTokens x pf > contextWindow m - outputLength m.
Proof.
  intros Hin. destruct (main_law x inv w) as [He _ _ _ _].
  pose proof (proj1 (Forall_forall _ _) He _ Hin) as Hp.
  inversion Hp as [| | | | | | | | |m pf b Hm Hpf Hover| | | | | | | |]; subst.
  exists m, pf. split; [done|]. split; [done|].
  unfold checkContextWindowOverflow in Hover.
  destruct (Z.ltb_spec (contextWindow m - outputLength m) (estimateTokens x pf));
    [lia | done].
Qed.

(** X11: when the provider of the selected model has no client, a task that
    is entered and is not a question ends the run with the error message
    and exit code 1 right after the prompt: nothing is sent to a model,
    verified or applied, and files and history are unchanged. *)
Theorem unsupported_provider (m : Model) (task : string) :
  selectedModel (parseArgs x (argv inv)) = Some m →
  clientOf (provider m) = None →
  EInput task ∈ trace (main x inv w) →
  JS.startsWith (JS.toLowerCase task) "ask " = false →
  outcome (main x inv w) = Exit 1
  ∧ files (world (main x inv w)) = files w
  ∧ history (world (main x inv w)) = history w
  ∧ ∃ pre,
      trace (main x inv w)
      = opening x inv m ++ pre
          ++ [EInput task; EError (MsgUnsupportedProvider (provider m)); EExit 1]
      ∧ Forall (λ e, preliminary e = true) pre.
Proof.
  intros Hm Hclient Hin Hask.
  destruct (main_task_cases x inv w)
    as [Hno | (m' & pf & pre & entered & Hm' & Hpf & Hfind & Hpre & Hmain)].
  { by destruct (Hno _ Hin) as [H | [H | H]]. }
  unfold selected in Hm'. rewrite Hm in Hm'. injection Hm' as <-.
  assert (trace (main x inv w)
          = opening x inv m ++ pre
              ++ [EInput task; EError (MsgUnsupportedProvider (provider m)); EExit 1]
          ∧ outcome (main x inv w) = Exit 1) as [Ht Ho].
  { rewrite Hmain in Hin |- *. cbn zeta in *. cbn [trace outcome] in *.
    apply (main_one_task x inv w m pf pre entered task Hpre) in Hin as ->.
    unfold branch. fold (asksQuestion entered) in Hask.
    rewrite Hask, editPipeline_run, Hclient. cbn [trace outcome closing].
    by rewrite app_nil_r. }
  destruct (main_disk_frame x inv w) as [Hfiles Hhistory].
  { rewrite Ht. apply Forall_app. split; [unfold opening; by each_event|].
    apply Forall_app. split; [| by each_event].
    eapply Forall_impl; [exact Hpre|]. by intros []. }
  split; [done|]. split; [done|]. split; [done|]. by exists pre.
Qed.

(** X12: [checkAndSetAPIKey] asks the user for a key exactly when
    [checkAPIKey] finds none; it prints that the key has been set exactly
    when it returns; it never touches files or history, and with a key
    present it leaves the whole machine as it is. *)
Theorem checkAndSetAPIKey_behaviour (m : Model) :
  let r := checkAndSetAPIKey x m w in
  (EGetAndSetAPIKey (provider m) ∈ trace r ↔ checkAPIKey x (provider m) (keys w) = false)
  ∧ (ELog (MsgKeySet (provider m)) ∈ trace r ↔ outcome r = Return tt)
  ∧ files (world r) = files w
  ∧ history (world r) = history w
  ∧ (checkAPIKey x (provider m) (keys w) = true → world r = w ∧ outcome r = Return tt).
Proof.
  cbn zeta. rewrite checkAndSetAPIKey_run.
  destruct (checkAPIKey x _ _); [| destruct (getAndSetAPIKey x _ _)];
    cbn [trace outcome world withKeys files history].
  - split; [split; [intros H; by in_list H | done] |].
    split; [split; [done | intros _; set_solver] | done].
  - split; [split; [done | intros _; set_solver] |].
    split; [split; [done | intros _; set_solver] | done].
  - split; [split; [done | intros _; set_solver] |].
    split; [split; [intros H; by in_list H | done] | done].
Qed.

End FurtherRuns.

(** ** The validator of the prompt and the size check *)
Lemma trimStart_blank (s : string) : blank s = true → JS.trimStart s = "".
Proof.
  induction s as [|c s IH]; [done|]. simpl.
  intros [Hc Hs]%andb_true_iff. rewrite Hc. by apply IH.
Qed.

Lemma trimStart_not_blank (s : string) :
  blank s = false →
  ∃ c s', JS.trimStart s = String c s' ∧ JS.is_white c = false.
Proof.
  induction s as [|c s IH]; [done|]. simpl.
  destruct (JS.is_white c) eqn:Hc; simpl; [apply IH|].
  intros _. by exists c, s.
Qed.

Lemma trimEnd_head (c : ascii) (s : string) :
  JS.is_white c = false → JS.trimEnd (String c s) ≠ "".
Proof. intros Hc. simpl. rewrite Hc. by destruct (JS.trimEnd s). Qed.

Lemma validate_negb_blank (input : string) : validate input = negb (blank input).
Proof.
  unfold validate, JS.trim. destruct (blank input) eqn:Hb; simpl.
  - by rewrite trimStart_blank.
  - destruct (trimStart_not_blank input Hb) as (c & s' & -> & Hc).
    apply negb_true_iff, String.eqb_neq. by apply trimEnd_head.
Qed.

(** X13: the validator of the task prompt rejects exactly the entries that
    consist of white space only. *)
Theorem validate_rejects_blank (input : string) :
  validate input = false ↔ blank input = true.
Proof. rewrite validate_negb_blank. by destruct (blank input). Qed.

Lemma trim_blank (s : string) : blank s = true → JS.trim s = "".
Proof. intros Hb. unfold JS.trim. by rewrite trimStart_blank. Qed.

(** X14: a task that is "ask " followed by white space only passes the
    validator and is a question, and the question handed to [askAI] is the
    empty string. *)
Theorem blank_question (task : string) :
  JS.startsWith (JS.toLowerCase task) "ask " = true →
  blank (JS.slice 4 task) = true →
  validate task = true ∧ JS.trim (JS.slice 4 task) = "".
Proof.
  intros Hask Hblank. split; [| by apply trim_blank].
  apply asksQuestion_chars in Hask as (a & s & k & rest & -> & Ha & _ & _).
  rewrite validate_negb_blank. simpl.
  by destruct Ha as [-> | ->].
Qed.

(** ** Runs of the two installations *)

Lemma exit_is_final_witness :
  outcome (main Sample.externals (Sample.invoke ["-p"] "") Sample.machine) = Exit 1
  ∧ (1 = 0 ∨ 1 = 1)
  ∧ ∃ pre,
      trace (main Sample.externals (Sample.invoke ["-p"] "") Sample.machine)
      = pre ++ [EExit 1]
      ∧ Forall (λ e, isExit e = false) pre.
Proof.
  apply (exit_is_final Sample.externals (Sample.invoke ["-p"] "") Sample.machine 1).
  vm_compute. repeat constructor.
Defined.

Lemma provider_call_witness :
  ∃ m pf pre post,
    selectedModel (parseArgs Sample.externals ["a.txt"; "4o"]) = Some m
    ∧ processFiles Sample.externals
        (fileInputs (parseArgs Sample.externals ["a.txt"; "4o"]))
        (includeImports (parseArgs Sample.externals ["a.txt"; "4o"]))
        Sample.disk = Ok pf
    ∧ clientOf (provider m) = Some GPT
    ∧ "1: line1" = code pf
    ∧ "gpt-4o" = name m
    ∧ Ok Sample.edits = getAIEdits Sample.externals GPT "1: line1" " Fix it " "gpt-4o"
    ∧ find validate [""; " Fix it "] = Some " Fix it "
    ∧ JS.trim " Fix it " ≠ ""
    ∧ JS.startsWith (JS.toLowerCase " Fix it ") "ask " = false
    ∧ trace (main Sample.externals (Sample.invoke ["a.txt"; "4o"] " Fix it ")
               Sample.machine)
      = opening Sample.externals (Sample.invoke ["a.txt"; "4o"] " Fix it ") m ++ pre
          ++ [EInput " Fix it ";
              EGetAIEdits GPT "1: line1" " Fix it " "gpt-4o" (Ok Sample.edits)] ++ post
    ∧ Forall (λ e, preliminary e = true) pre.
Proof.
  apply (provider_call Sample.externals (Sample.invoke ["a.txt"; "4o"] " Fix it ")
           Sample.machine GPT "1: line1" " Fix it " "gpt-4o" (Ok Sample.edits)).
  vm_compute. repeat constructor.
Defined.

Lemma processFiles_call_witness :
  ["src"; "lib"] = fileInputs (parseArgs Sample.externals ["-a"; "src"; "lib"; "4o"])
  ∧ ["src"; "lib"] ≠ []
  ∧ true = bool_decide ("-a" ∈ ["-a"; "src"; "lib"; "4o"])
  ∧ head ["-a"; "src"; "lib"; "4o"] ≠ Some "revert"
  ∧ ∃ rest,
      trace (main Sample.externals (Sample.invoke ["-a"; "src"; "lib"; "4o"] "ask why")
               Sample.machine)
      = EProcessFiles ["src"; "lib"] true :: rest.
Proof.
  apply (processFiles_call Sample.externals
           (Sample.invoke ["-a"; "src"; "lib"; "4o"] "ask why") Sample.machine
           ["src"; "lib"] true).
  vm_compute. repeat constructor.
Defined.

Lemma overflow_decline_witness :
  outcome (main Scenario.externals Scenario.declining Sample.machine) = Exit 0
  ∧ files (world (main Scenario.externals Scenario.declining Sample.machine))
    = Sample.disk.
Proof.
  destruct (overflow_decline Scenario.externals Scenario.declining Sample.machine)
    as (Hexit & Hfiles & _).
  - vm_compute. repeat constructor.
  - split; [exact Hexit | exact Hfiles].
Defined.

Lemma confirm_only_on_overflow_witness :
  ∃ m pf,
    selectedModel (parseArgs Scenario.externals (argv Scenario.declining)) = Some m
    ∧ processFiles Scenario.externals
        (fileInputs (parseArgs Scenario.externals (argv Scenario.declining)))
        (includeImports (parseArgs Scenario.externals (argv Scenario.declining)))
        Sample.disk = Ok pf
    ∧ estimateTokens Scenario.externals pf > contextWindow m - outputLength m.
Proof.
  apply (confirm_only_on_overflow Scenario.externals Scenario.declining Sample.machine
           false).
  vm_compute. repeat constructor.
Defined.

Lemma unsupported_provider_witness :
  outcome (main Scenario.externals Scenario.unsupported Sample.machine) = Exit 1
  ∧ files (world (main Scenario.externals Scenario.unsupported Sample.machine))
    = Sample.disk.
Proof.
  destruct (unsupported_provider Scenario.externals Scenario.unsupported
              Sample.machine Scenario.homegrown "fix it") as (Hexit & Hfiles & _).
  - reflexivity.
  - reflexivity.
  - vm_compute. repeat constructor.
  - reflexivity.
  - split; [exact Hexit | exact Hfiles].
Defined.

Lemma blank_question_witness :
  validate "Ask   " = true ∧ JS.trim (JS.slice 4 "Ask   ") = "".
Proof. apply (blank_question "Ask   "); reflexivity. Defined.

(** X16: [askAI] is called only with the compiled text of [processFiles],
    the name and the provider of the selected model, and as question the
    trimmed rest of the task as the user entered it: the answer of the
    prompt, which is the first entry that is not blank, and which begins
    with "ask " (in any case); the call is the next event after the
    prompt. *)
Theorem question_call (x : Externals) (inv : Invocation) (w : World)
    (compiled question nm prov : string) :
  EAskAI compiled question nm prov ∈ trace (main x inv w) →
  ∃ m pf task pre post,
    selectedModel (parseArgs x (argv inv)) = Some m
    ∧ processFiles x (fileInputs (parseArgs x (argv inv)))
        (includeImports (parseArgs x (argv inv))) (files w) = Ok pf
    ∧ compiled = code pf
    ∧ nm = name m
    ∧ prov = provider m
    ∧ find validate (taskAttempts inv) = Some task
    ∧ question = JS.trim (JS.slice 4 task)
    ∧ JS.startsWith (JS.toLowerCase task) "ask " = true
    ∧ blank task = false
    ∧ trace (main x inv w)
      = opening x inv m ++ pre
          ++ [EInput task; EAskAI compiled question nm prov] ++ post
    ∧ Forall (λ e, preliminary e = true) pre.
Proof.
  intros Hin.
  destruct (main_task_cases x inv w)
    as [Hno | (m & pf & pre & task & Hm & Hpf & Hfind & Hpre & Hmain)].
  { by destruct (Hno _ Hin) as [H | [H | H]]. }
  rewrite Hmain in Hin |- *. cbn zeta in *. cbn [trace] in *.
  apply (main_branch_event x inv w m pf pre task
           (EAskAI compiled question nm prov) Hpre eq_refl eq_refl eq_refl) in Hin.
  apply branch_askAI in Hin as (Hask & -> & -> & -> & -> & post & Hpost).
  exists m, pf, task, pre,
    (post ++ closing (outcome (branch x m pf task (world (preamble x inv m pf w))))).
  repeat (split; [done|]).
  split; [| split; [| done]].
  - apply find_some in Hfind as [_ Hvalid].
    rewrite validate_negb_blank in Hvalid. by destruct (blank task).
  - by rewrite Hpost.
Qed.

Lemma question_call_witness :
  ∃ m pf task pre post,
    selectedModel (parseArgs Sample.externals ["a.txt"; "4o"]) = Some m
    ∧ processFiles Sample.externals
        (fileInputs (parseArgs Sample.externals ["a.txt"; "4o"]))
        (includeImports (parseArgs Sample.externals ["a.txt"; "4o"]))
        Sample.disk = Ok pf
    ∧ "1: line1" = code pf
    ∧ "gpt-4o" = name m
    ∧ "openai" = provider m
    ∧ find validate [""; "Ask  what? "] = Some task
    ∧ "what?" = JS.trim (JS.slice 4 task)
    ∧ JS.startsWith (JS.toLowerCase task) "ask " = true
    ∧ blank task = false
    ∧ trace (main Sample.externals (Sample.invoke ["a.txt"; "4o"] "Ask  what? ")
               Sample.machine)
      = opening Sample.externals (Sample.invoke ["a.txt"; "4o"] "Ask  what? ") m ++ pre
          ++ [EInput task; EAskAI "1: line1" "what?" "gpt-4o" "openai"] ++ post
    ∧ Forall (λ e, preliminary e = true) pre.
Proof.
  apply (question_call Sample.externals (Sample.invoke ["a.txt"; "4o"] "Ask  what? ")
           Sample.machine "1: line1" "what?" "gpt-4o" "openai").
  vm_compute. repeat constructor.
Defined.
